(** * Object-detection pipeline of [project_context/model.py]

    A shallow embedding of the letterbox transform, the tensor quantizer,
    the detection post-processor and the inference loop, with the
    properties the specification states about them.

    Python [int] is [Z].  Python [float] (binary64) and NumPy [float32]
    are reached through the interface [PyFloat], so that every function
    below is written once and read in three kinds of arithmetic:
    - [SF64] and [SF32]: IEEE-754 binary64 and binary32 as the Standard
      Library's executable specification [spec_float], bit-exact, with
      infinities and NaN; used to evaluate the code on concrete inputs and
      to check it on all 256 bytes;
    - [R64] and [R32]: rationals where every operation is the exact one
      followed by [rnd_to 53] or [rnd_to 24], rounding to nearest, ties to
      even, on an unbounded exponent range; this is binary64 and binary32
      wherever nothing overflows or underflows, and it is the arithmetic the
      bounds on the letterbox geometry are proved in;
    - [RQ exact]: the rationals with no rounding at all.
    Properties that do not depend on the arithmetic are proved for every
    instance of the interface.

    The module-level configuration of the script ([in_w], [in_h], [labels],
    [score_thresh], [in_dtype], [in_scale], [in_zero]) is passed as
    parameters; [in_w] and [in_h] are NumPy integers, entries of the
    detector's input shape, so that dividing them by zero raises nothing
    ([np_truediv]); their values are taken in [Z].  The library
    calls ([cv2.resize], the PIL fallback, the interpreter) are parameters
    too. *)

From Stdlib Require Import ZArith QArith Qround Qabs Qpower Qminmax Lia Lqa List Bool Morphisms.
From Stdlib Require Import String Ascii DecimalString.
From Stdlib Require Import SpecFloat Sorted.
Import ListNotations.

Local Open Scope Z_scope.

(** ** Exceptions and the result monad *)

Inductive exn : Type :=
| ZeroDivisionError   (* float / 0.0 *)
| ValueError          (* int(nan), shape mismatch in a slice assignment, bad shape *)
| OverflowError       (* int(inf) *)
| IndexError          (* array index out of range *)
| ResizeError         (* cv2.resize failed and so did the PIL fallback *)
| BackendError.       (* set_tensor / invoke / get_tensor raised *)

Inductive res (A : Type) : Type :=
| Ok (a : A)
| Raise (e : exn).
Arguments Ok {A} a.
Arguments Raise {A} e.

Definition bind {A B : Type} (m : res A) (k : A -> res B) : res B :=
  match m with
  | Ok a => k a
  | Raise e => Raise e
  end.

Notation "x <- m ;; k" := (bind m (fun x => k))
  (at level 61, m at next level, right associativity).
Notation "' p <- m ;; k" := (bind m (fun x => match x with p => k end))
  (at level 61, p pattern, m at next level, right associativity).

(** ** The floating-point interface *)

Class PyFloat (F : Type) : Type := {
  (** the literal or converted value [m * 2^e]; [m * 2^0] is [float(m)] *)
  of_dyadic : Z -> Z -> F;
  fadd : F -> F -> F;
  fsub : F -> F -> F;
  fmul : F -> F -> F;
  (** the IEEE quotient; Python's own [/] raises first on a zero divisor *)
  fdiv : F -> F -> F;
  (** [x < y] *)
  flt : F -> F -> bool;
  (** [x == 0.0] *)
  fis_zero : F -> bool;
  (** [int(x)]: truncation toward zero *)
  to_int : F -> res Z;
  (** NumPy's [.round()]: to the nearest integer, ties to even *)
  frint : F -> F
}.

Definition of_int {F : Type} `{PyFloat F} (n : Z) : F := of_dyadic n 0.

(** [a / b] for a NumPy integer [a] and an int [b]: the binary64 quotient
    of the two converted values.  NumPy raises nothing on a zero divisor:
    the quotient is then an infinity or NaN (with a warning). *)
Definition np_truediv {F : Type} `{PyFloat F} (a b : Z) : F :=
  fdiv (of_int a) (of_int b).

(** Python's [a / b] on two floats. *)
Definition float_truediv {F : Type} `{PyFloat F} (a b : F) : res F :=
  if fis_zero b then Raise ZeroDivisionError else Ok (fdiv a b).

(** Python's builtin [min(a, b)]: the first argument unless the second is
    smaller. *)
Definition py_min {F : Type} `{PyFloat F} (a b : F) : F :=
  if flt b a then b else a.

(** NumPy's [.clip(lo, hi)], that is [minimum(maximum(x, lo), hi)]; a NaN
    compares false both times and passes through. *)
Definition fclip {F : Type} `{PyFloat F} (lo hi x : F) : F :=
  if flt x lo then lo else if flt hi x then hi else x.

(** ** Instance: rationals with a rounding operator *)

Definition pow2 (e : Z) : Q := Qpower 2%Q e.

Definition Qtrunc (q : Q) : Z := Z.quot (Qnum q) (Zpos (Qden q)).

(** Nearest integer, ties to even. *)
Definition Qrint (q : Q) : Z :=
  let f := Qfloor q in
  match Qcompare (q - inject_Z f)%Q (1 # 2)%Q with
  | Lt => f
  | Gt => f + 1
  | Eq => if Z.even f then f else f + 1
  end.

Definition Qltb (x y : Q) : bool :=
  match Qcompare x y with Lt => true | _ => false end.

Definition RQ (rnd : Q -> Q) : PyFloat Q := {|
  of_dyadic := fun m e => rnd (inject_Z m * pow2 e)%Q;
  fadd := fun x y => rnd (x + y)%Q;
  fsub := fun x y => rnd (x - y)%Q;
  fmul := fun x y => rnd (x * y)%Q;
  fdiv := fun x y => rnd (x / y)%Q;
  flt := Qltb;
  fis_zero := fun x => Qeq_bool x 0%Q;
  to_int := fun x => Ok (Qtrunc x);
  frint := fun x => inject_Z (Qrint x)
|}.

Definition exact (q : Q) : Q := q.

(** [floor (log2 q)] for a positive rational. *)
Definition ilog2 (q : Q) : Z :=
  let k := Z.log2 (Qnum q) - Z.log2 (Zpos (Qden q)) in
  if Qle_bool (pow2 k) q then k else k - 1.

(** Round to nearest, ties to even, on [p] significant bits (unbounded
    exponent range). *)
Definition rnd_to (p : Z) (q : Q) : Q :=
  if Qeq_bool q 0%Q then 0%Q
  else
    let e := ilog2 (Qabs q) - (p - 1) in
    Qred (inject_Z (Qrint (q / pow2 e)%Q) * pow2 e)%Q.

(** Binary64 and binary32 arithmetic in the normal range: no overflow, no
    underflow and no zero divisor, which only [SF64] and [SF32] model. *)
Definition R64 : PyFloat Q := RQ (rnd_to 53).
Definition R32 : PyFloat Q := RQ (rnd_to 24).

(** ** Instance: IEEE-754 binary floats *)

Section SFInstance.
Variables prec emax : Z.

Definition SFtrunc (x : spec_float) : res Z :=
  match x with
  | S754_zero _ => Ok 0
  | S754_nan => Raise ValueError
  | S754_infinity _ => Raise OverflowError
  | S754_finite s m e =>
      let a := match e with
               | Z0 => Zpos m
               | Zpos _ => Zpos m * 2 ^ e
               | Zneg _ => Zpos m / 2 ^ (- e)
               end in
      Ok (if s then - a else a)
  end.

(** Nearest integer, ties to even, of [m * 2^e] with [e < 0]. *)
Definition rint_mag (m : positive) (e : Z) : Z :=
  let d := 2 ^ (- e) in
  let q := Zpos m / d in
  let r := Zpos m mod d in
  match Z.compare (2 * r) d with
  | Lt => q
  | Gt => q + 1
  | Eq => if Z.even q then q else q + 1
  end.

Definition SFrint (x : spec_float) : spec_float :=
  match x with
  | S754_finite s m (Zneg p) =>
      let n := rint_mag m (Zneg p) in
      binary_normalize prec emax (if s then - n else n) 0 s
  | _ => x
  end.

Definition SFis_zero (x : spec_float) : bool :=
  match x with S754_zero _ => true | _ => false end.

Definition SF : PyFloat spec_float := {|
  of_dyadic := fun m e => binary_normalize prec emax m e false;
  fadd := SFadd prec emax;
  fsub := SFsub prec emax;
  fmul := SFmul prec emax;
  fdiv := SFdiv prec emax;
  flt := SFltb;
  fis_zero := SFis_zero;
  to_int := SFtrunc;
  frint := SFrint
|}.
End SFInstance.

Definition SF64 : PyFloat spec_float := SF 53 1024.
Definition SF32 : PyFloat spec_float := SF 24 128.

(** The rational a finite binary float denotes. *)
Definition SF2Q (x : spec_float) : option Q :=
  match x with
  | S754_zero _ => Some 0%Q
  | S754_finite s m e =>
      Some (Qred ((if s then inject_Z (Zneg m) else inject_Z (Zpos m)) * pow2 e)%Q)
  | _ => None
  end.

(** ** Arrays *)

(** An [H x W] array of cells; [px a r c] is the cell of row [r], column
    [c], read only for [0 <= r < height a] and [0 <= c < width a]. *)
Record array (A : Type) : Type := {
  height : nat;
  width : nat;
  px : Z -> Z -> A
}.
Arguments height {A} a.
Arguments width {A} a.
Arguments px {A} a r c.

(** The three 8-bit samples of a pixel. *)
Definition pixel : Type := (Z * Z * Z)%type.
Definition image : Type := array pixel.

(** [np.zeros((new_h, new_w, 3))] *)
Definition zeros (new_h new_w : Z) : res image :=
  if (new_h <? 0) || (new_w <? 0) then Raise ValueError
  else Ok {| height := Z.to_nat new_h; width := Z.to_nat new_w;
             px := fun _ _ => (0, 0, 0) |}.

(** A slice bound [i] of a sequence of length [n], as Python normalises
    it: a negative bound counts from the end, and both are clipped. *)
Definition slice_bound (n i : Z) : Z :=
  if i <? 0 then Z.max 0 (i + n) else Z.min i n.

(** First index and length of [start:stop] on a sequence of length [n]. *)
Definition slice_range (n start stop : Z) : Z * Z :=
  let s := slice_bound n start in
  let e := slice_bound n stop in
  (s, Z.max 0 (e - s)).

(** An axis of length [src] broadcasts to one of length [dst]. *)
Definition broadcastable (src dst : Z) : bool :=
  (src =? dst) || (src =? 1).

(** [canvas[r_start:r_stop, c_start:c_stop] = resized] *)
Definition paste {A : Type} (canvas : array A) (r_start r_stop c_start c_stop : Z)
    (resized : array A) : res (array A) :=
  let '(r0, rn) := slice_range (Z.of_nat (height canvas)) r_start r_stop in
  let '(c0, cn) := slice_range (Z.of_nat (width canvas)) c_start c_stop in
  let rh := Z.of_nat (height resized) in
  let rw := Z.of_nat (width resized) in
  if broadcastable rh rn && broadcastable rw cn then
    Ok {| height := height canvas; width := width canvas;
          px := fun r c =>
            if (r0 <=? r) && (r <? r0 + rn) && (c0 <=? c) && (c <? c0 + cn)
            then px resized (if rh =? rn then r - r0 else 0)
                            (if rw =? cn then c - c0 else 0)
            else px canvas r c |}
  else Raise ValueError.

(** ** Letterbox transform *)

Section Letterbox.
Context {F : Type} {PF : PyFloat F}.

(** [cv2.resize(img, (nw, nh), interpolation=cv2.INTER_LINEAR)] and the PIL
    fallback [Image.fromarray(img).resize((nw, nh))]: library code. *)
Variables cv_resize pil_resize : image -> Z -> Z -> res image.

Definition resize (img : image) (nw nh : Z) : res image :=
  match cv_resize img nw nh with
  | Ok r => Ok r
  | Raise _ => pil_resize img nw nh
  end.

(** Lines 69 to 71: the scale and the size [(nw, nh)] of the resized
    image.  The targets are the entries [in_w], [in_h] of the detector's
    input shape (lines 115 and 153), NumPy integers. *)
Definition letterbox_dims (img : image) (new_w new_h : Z) : res (F * Z * Z) :=
  let h := Z.of_nat (height img) in
  let w := Z.of_nat (width img) in
  let a := np_truediv new_w w in
  let b := np_truediv new_h h in
  let scale := py_min a b in
  nw <- to_int (fmul (of_int w) scale) ;;
  nh <- to_int (fmul (of_int h) scale) ;;
  Ok (scale, nw, nh).

Definition letterbox (img : image) (new_w new_h : Z) : res (image * F * Z * Z) :=
  '(scale, nw, nh) <- letterbox_dims img new_w new_h ;;
  resized <- resize img nw nh ;;
  canvas <- zeros new_h new_w ;;
  let top := (new_h - nh) / 2 in
  let left := (new_w - nw) / 2 in
  canvas <- paste canvas top (top + nh) left (left + nw) resized ;;
  Ok (canvas, scale, left, top).
End Letterbox.

(** What the specification writes for the resized size and the padding
    offset of one axis: [round(d * scale)] and [(target - d * scale) / 2]. *)
Definition spec_resized_dim {F : Type} `{PyFloat F} (d : Z) (scale : F) : res Z :=
  to_int (frint (fmul (of_int d) scale)).

Definition spec_offset {F : Type} `{PyFloat F} (target d : Z) (scale : F) : F :=
  fdiv (fsub (of_int target) (fmul (of_int d) scale)) (of_int 2).

(** [letterbox_dims] gives the same scale and sizes in [SF64] and in
    [R64] on an [h x w] image and a [new_w x new_h] target. *)
Definition dims_agree (hw : nat * nat) (target : Z * Z) : bool :=
  let img := {| height := fst hw; width := snd hw; px := fun _ _ => (0, 0, 0) |} in
  match @letterbox_dims _ SF64 img (fst target) (snd target),
        @letterbox_dims _ R64 img (fst target) (snd target) with
  | Ok (s1, nw1, nh1), Ok (s2, nw2, nh2) =>
      match SF2Q s1 with
      | Some q => Qeq_bool q s2 && (nw1 =? nw2) && (nh1 =? nh2)
      | None => false
      end
  | Raise e1, Raise e2 => true
  | _, _ => false
  end.

(** Frame and target sizes to compare the two models on: every size up to
    8 x 8 into every target up to 4 x 4, and common camera and detector
    sizes. *)
Definition small_sizes : list (nat * nat) :=
  list_prod (seq 1 8) (seq 1 8).
Definition small_targets : list (Z * Z) :=
  list_prod (map Z.of_nat (seq 1 4)) (map Z.of_nat (seq 1 4)).
Definition camera_sizes : list (nat * nat) :=
  [(480, 640); (360, 640); (720, 1280); (1080, 1920); (427, 640); (375, 500);
   (640, 480); (2160, 3840); (1, 49); (49, 1)]%nat.
Definition detector_targets : list (Z * Z) :=
  [(224, 224); (300, 300); (320, 320); (384, 384); (448, 448); (512, 512);
   (640, 640); (320, 240)].

(** ** Tensor quantizer *)

Inductive dtype : Type := Float32 | UInt8 | Int8 | OtherDtype.

(** One element of the quantized tensor. *)
Inductive qval (F : Type) : Type :=
| QF32 (v : F)
| QU8 (n : Z)
| QI8 (n : Z)
| QOther (n : Z).
Arguments QF32 {F} v.
Arguments QU8 {F} n.
Arguments QI8 {F} n.
Arguments QOther {F} n.

(** Integer conversion to an 8-bit type keeps the low byte. *)
Definition wrap_u8 (n : Z) : Z := n mod 256.
Definition wrap_i8 (n : Z) : Z := (n + 128) mod 256 - 128.

Section Quantizer.
Context {F : Type} {PF : PyFloat F}.

(** [.astype(np.uint8)] and [.astype(np.int8)] on a float: the C cast
    truncates; outside the target range (and on NaN) C leaves the result
    open, taken here as on x86-64: the low byte, and 0 when the value has
    no integer part at all. *)
Definition astype_u8 (v : F) : Z :=
  match to_int v with Ok n => wrap_u8 n | Raise _ => 0 end.
Definition astype_i8 (v : F) : Z :=
  match to_int v with Ok n => wrap_i8 n | Raise _ => 0 end.

(** [quantize_input] on one sample [x] of the input buffer. *)
Definition quantize_elem (in_dtype : dtype) (in_scale : F) (in_zero : Z)
    (x : Z) : qval F :=
  match in_dtype with
  | Float32 => QF32 (fdiv (of_int x) (of_int 255))
  | UInt8 =>
      if flt (of_int 0) in_scale then
        let q := fdiv (of_int x) (of_int 255) in
        QU8 (astype_u8 (fclip (of_int 0) (of_int 255)
               (frint (fadd (fdiv q in_scale) (of_int in_zero)))))
      else QU8 (wrap_u8 x)
  | Int8 =>
      if flt (of_int 0) in_scale then
        let q := fdiv (of_int x) (of_int 255) in
        QI8 (astype_i8 (fclip (of_int (-128)) (of_int 127)
               (frint (fadd (fdiv q in_scale) (of_int in_zero)))))
      else
        let q := fclip (of_int (-1)) (of_int 1)
                   (fdiv (fsub (of_int x) (of_dyadic 255 (-1))) (of_dyadic 255 (-1))) in
        QI8 (astype_i8 (fclip (of_int (-128)) (of_int 127)
               (frint (fdiv q (of_dyadic 1 (-7))))))
  | OtherDtype => QOther x
  end.

Definition tensor : Type := array (qval F * qval F * qval F).

Definition quantize_input (x : image) (in_dtype : dtype) (in_scale : F)
    (in_zero : Z) : tensor :=
  {| height := height x; width := width x;
     px := fun r c =>
       let '(c0, c1, c2) := px x r c in
       (quantize_elem in_dtype in_scale in_zero c0,
        quantize_elem in_dtype in_scale in_zero c1,
        quantize_elem in_dtype in_scale in_zero c2) |}.
End Quantizer.

(** The 256 values of an 8-bit sample. *)
Definition byte_values : list Z := map Z.of_nat (seq 0 256).

(** A binary32 value lies in [[0, 1]]. *)
Definition SF_in_unit (v : spec_float) : bool :=
  SFleb (S754_zero false) v && SFleb v (@of_int _ SF32 1).

(** What the specification writes for the int8 fallback, in exact
    arithmetic: centre the sample at 127.5, scale to [[-1, 1]], divide by
    0.0078125, round, clip to [[-128, 127]]. *)
Definition int8_fallback_spec (x : Z) : Z :=
  let centred := ((inject_Z x - (255 # 2)) / (255 # 2))%Q in
  let unit := Qmax (-1) (Qmin 1 centred) in
  Z.max (-128) (Z.min 127 (Qrint (unit / (1 # 128))%Q)).

(** ** Detection post-processor *)

(** [f"{c}"] for an int. *)
Definition str_of_int (c : Z) : string := NilZero.string_of_int (Z.to_int c).

(** The label of class index [c]: the 0-based entry, else the 1-based one,
    else a placeholder. *)
Definition resolve_label (labels : list string) (c : Z) : string :=
  let n := Z.of_nat (List.length labels) in
  if (0 <=? c) && (c <? n) then nth (Z.to_nat c) labels EmptyString
  else if (1 <=? c) && (c <=? n) then nth (Z.to_nat (c - 1)) labels EmptyString
  else ("id:" ++ str_of_int c)%string.

(** [a[i]] on a one-axis array, [i >= 0]. *)
Definition index {A : Type} (a : list A) (i : nat) : res A :=
  match nth_error a i with
  | Some x => Ok x
  | None => Raise IndexError
  end.

(** [for i in l: s = body(i, s)] *)
Fixpoint for_each {I S : Type} (body : I -> S -> res S) (l : list I) (s : S) : res S :=
  match l with
  | [] => Ok s
  | i :: l' => s' <- body i s ;; for_each body l' s'
  end.

(** [range(n)] *)
Definition py_range (n : Z) : list nat := seq 0 (Z.to_nat n).

(** [max(0, min(d - 1, v))] *)
Definition clamp (d v : Z) : Z := Z.max 0 (Z.min (d - 1) v).

Section PostProcess.
Context {F : Type} {PF : PyFloat F}.

(** The detector's output tensors, each coordinate already through
    [float(...)]; a box is [(ymin, xmin, ymax, xmax)]. *)
Record raw_output : Type := {
  boxes : list (F * F * F * F);
  classes : list F;
  scores : list F;
  count : F
}.

Record detection : Type := {
  box : Z * Z * Z * Z;      (* (x1, y1, x2, y2) *)
  name : string;
  score : F
}.

Variables (in_w in_h : Z) (labels : list string) (score_thresh : F).

(** The inverse letterbox map on one axis, [(p - off) / scale]: from a
    canvas coordinate to a source coordinate. *)
Definition to_source (p : F) (off : Z) (scale : F) : res F :=
  float_truediv (fsub p (of_int off)) scale.

(** [int((v * dim - off) / scale)] on a normalised coordinate [v]. *)
Definition deletterbox (v : F) (dim off : Z) (scale : F) : res Z :=
  q <- to_source (fmul v (of_int dim)) off scale ;;
  to_int q.

(** Lines 179 to 188: the box of a raw detection in frame pixels,
    [(x1, y1, x2, y2)], de-letterboxed and clamped to the frame. *)
Definition frame_box (b : F * F * F * F) (scale : F) (left top : Z) (w h : Z)
    : res (Z * Z * Z * Z) :=
  let '(ymin, xmin, ymax, xmax) := b in
  x1 <- deletterbox xmin in_w left scale ;;
  y1 <- deletterbox ymin in_h top scale ;;
  x2 <- deletterbox xmax in_w left scale ;;
  y2 <- deletterbox ymax in_h top scale ;;
  Ok (clamp w x1, clamp h y1, clamp w x2, clamp h y2).

(** One iteration of the [for i in range(count)] loop: [dets] is the
    list built so far, the result is the list after the iteration. *)
Definition loop_body (raw : raw_output) (scale : F) (left top : Z) (w h : Z)
    (i : nat) (dets : list detection) : res (list detection) :=
  s <- index (scores raw) i ;;
  if flt s score_thresh then Ok dets
  else
    cf <- index (classes raw) i ;;
    c <- to_int cf ;;
    let name := resolve_label labels c in
    b <- index (boxes raw) i ;;
    '(x1, y1, x2, y2) <- frame_box b scale left top w h ;;
    if (x2 <=? x1) || (y2 <=? y1) then Ok dets
    else Ok (dets ++ [ {| box := (x1, y1, x2, y2); name := name; score := s |} ]).

(** Lines 163 to 191: [count = int(...)], [h, w = frame.shape[:2]],
    [dets = []] and the loop. *)
Definition post_process (raw : raw_output) (scale : F) (left top : Z)
    (frame_w frame_h : Z) : res (list detection) :=
  n <- to_int (count raw) ;;
  for_each (loop_body raw scale left top frame_w frame_h) (py_range n) [].
End PostProcess.

Arguments raw_output F : clear implicits.
Arguments detection F : clear implicits.

(** ** Inference loop *)

Section Pipeline.
Context {F32 F64 : Type} {P32 : PyFloat F32} {P64 : PyFloat F64}.

Variables cv_resize pil_resize : image -> Z -> Z -> res image.
Variables (in_w in_h : Z) (in_dtype : dtype) (in_scale : F32) (in_zero : Z).
Variables (labels : list string) (score_thresh : F64).

(** The globals the loop writes, and its local [t_prev]. *)
Record pstate : Type := {
  detections : list (detection F64);
  fps : F64;
  t_prev : F64
}.

(** What one pass of the [while] loop observes from outside: the
    [running] flag, the frame slot, the interpreter (set the input,
    invoke, read the four outputs) and the clock at the end of the
    cycle. *)
Record tick : Type := {
  tk_running : bool;
  tk_frame : option image;
  tk_invoke : @tensor F32 -> res (raw_output F64);
  tk_now : F64
}.

(** Lines 152 to 196: one cycle on a frame. *)
Definition cycle (tk : tick) (frame : image) (st : pstate) : res pstate :=
  '(lb_img, scale, left', top') <- letterbox cv_resize pil_resize frame in_w in_h ;;
  let x := quantize_input lb_img in_dtype in_scale in_zero in
  raw <- tk_invoke tk x ;;
  let h := Z.of_nat (height frame) in
  let w := Z.of_nat (width frame) in
  dets <- post_process in_w in_h labels score_thresh raw scale left' top' w h ;;
  let t_now := tk_now tk in
  new_fps <- (if flt (t_prev st) t_now
              then float_truediv (of_int 1) (fsub t_now (t_prev st))
              else Ok (of_int 0)) ;;
  Ok {| detections := dets; fps := new_fps; t_prev := t_now |}.

(** How a run of the loop over finitely many observations ends. *)
Inductive outcome : Type :=
| Exited              (* [running] was seen false *)
| Crashed (e : exn)   (* an exception left [detection_loop] *)
| StillRunning.       (* the observations ran out *)

Fixpoint detection_loop (ticks : list tick) (st : pstate) : pstate * outcome :=
  match ticks with
  | [] => (st, StillRunning)
  | tk :: rest =>
      if negb (tk_running tk) then (st, Exited)
      else
        match tk_frame tk with
        | None => detection_loop rest st
        | Some frame =>
            match cycle tk frame st with
            | Ok st' => detection_loop rest st'
            | Raise e => (st, Crashed e)
            end
        end
  end.
End Pipeline.

(** ** What an iteration of the post-processing loop does with index [i] *)

Section PostProcessSpec.
Context {F : Type} {PF : PyFloat F}.
Variables (in_w in_h : Z) (labels : list string) (score_thresh : F).
Variables (raw : raw_output F) (scale : F) (left top : Z) (w h : Z).

(** Raw detection [i] is dropped by the threshold test. *)
Definition below_threshold (i : nat) : Prop :=
  exists s, nth_error (scores raw) i = Some s /\ flt s score_thresh = true.

(** Raw detection [i] passes the threshold test. *)
Definition eligible (i : nat) : Prop :=
  exists s, nth_error (scores raw) i = Some s /\ flt s score_thresh = false.

(** The frame box of raw detection [i] is empty. *)
Definition degenerate_at (i : nat) : Prop :=
  exists b x1 y1 x2 y2,
    nth_error (boxes raw) i = Some b /\
    frame_box in_w in_h b scale left top w h = Ok (x1, y1, x2, y2) /\
    (x2 <= x1 \/ y2 <= y1).

(** [d] is the detection made from raw detection [i]. *)
Definition detection_at (i : nat) (d : detection F) : Prop :=
  exists s cf c b,
    nth_error (scores raw) i = Some s /\
    nth_error (classes raw) i = Some cf /\ to_int cf = Ok c /\
    nth_error (boxes raw) i = Some b /\
    frame_box in_w in_h b scale left top w h = Ok (box d) /\
    name d = resolve_label labels c /\ score d = s.

(** The box invariant of a published detection: not empty, and inside
    the [w x h] frame. *)
Definition box_ok (d : detection F) : Prop :=
  let '(x1, y1, x2, y2) := box d in
  x1 < x2 /\ y1 < y2 /\
  0 <= x1 <= w - 1 /\ 0 <= x2 <= w - 1 /\
  0 <= y1 <= h - 1 /\ 0 <= y2 <= h - 1.

(** Every step of iteration [i] that is reached returns a value. *)
Definition iteration_defined (i : nat) : Prop :=
  exists s, nth_error (scores raw) i = Some s /\
    (flt s score_thresh = false ->
     exists cf c b bx,
       nth_error (classes raw) i = Some cf /\ to_int cf = Ok c /\
       nth_error (boxes raw) i = Some b /\
       frame_box in_w in_h b scale left top w h = Ok bx).
End PostProcessSpec.

(** ** A resize to run the examples with

    Nearest-neighbour sampling; like the libraries it refuses an empty
    target size. *)
Definition nn_resize (img : image) (nw nh : Z) : res image :=
  if (nw <=? 0) || (nh <=? 0) then Raise ResizeError
  else Ok {| height := Z.to_nat nh; width := Z.to_nat nw;
             px := fun r c => px img (r * Z.of_nat (height img) / nh)
                                     (c * Z.of_nat (width img) / nw) |}.

(** ** A worked configuration

    The camera's 640 x 480 frames letterboxed into a 320 x 320 detector
    input (scale 0.5, 40 rows of padding above and below), two labels, the
    default threshold 0.5, and a detector output of four raw detections in
    binary64. *)

Module Example.
Definition b64 (m e : Z) : spec_float := @of_dyadic _ SF64 m e.

Definition labels : list string := ["cat"; "dog"]%string.
Definition score_thresh : spec_float := b64 1 (-1).

Definition raw : raw_output spec_float := {|
  boxes := [ (b64 1 (-2), b64 1 (-2), b64 3 (-2), b64 3 (-2));
             (b64 1 (-2), b64 1 (-2), b64 3 (-2), b64 3 (-2));
             (b64 1 (-1), b64 1 (-3), b64 1 0, b64 1 (-2));
             (b64 1 (-1), b64 1 (-1), b64 1 (-1), b64 1 (-1)) ];
  classes := [ b64 0 0; b64 1 0; b64 2 0; b64 5 0 ];
  scores := [ b64 1 (-1); b64 1 (-2); b64 3 (-2); b64 1 0 ];
  count := b64 4 0
|}.

Definition scale : spec_float := b64 1 (-1).
Definition left : Z := 0.
Definition top : Z := 40.

(** A frame whose pixel at row [r], column [c] is [(r mod 256, c mod 256, 7)]. *)
Definition frame (h w : nat) : image :=
  {| height := h; width := w; px := fun r c => (r mod 256, c mod 256, 7) |}.

Definition st0 : @pstate spec_float :=
  {| detections := []; fps := b64 0 0; t_prev := b64 0 0 |}.

(** A pass of the loop whose interpreter call fails, and one whose call
    returns [raw]. *)
Definition tick_fail : @tick spec_float spec_float :=
  {| tk_running := true; tk_frame := Some (frame 480 640);
     tk_invoke := fun _ => Raise BackendError; tk_now := b64 1 0 |}.
Definition tick_good : @tick spec_float spec_float :=
  {| tk_running := true; tk_frame := Some (frame 480 640);
     tk_invoke := fun _ => Ok raw; tk_now := b64 2 0 |}.

(** The inference loop on 320 x 320 uint8 input without quantization
    parameters. *)
Definition run (ticks : list tick) (st : pstate) : pstate * outcome :=
  @detection_loop _ _ SF32 SF64 nn_resize nn_resize 320 320 UInt8 (S754_zero false) 0
    labels score_thresh ticks st.

(** A 640 x 360 frame letterboxed into 224 x 224: the scale, 0.35
    rounded to binary64, and the resized image. *)
Definition scale_wide : Q := 3152519739159347 # 9007199254740992.
Definition resized_wide : image :=
  {| height := 125; width := 224;
     px := fun r c => px (frame 360 640) (r * 360 / 125) (c * 640 / 224) |}.

Definition det0 : detection spec_float :=
  {| box := (160, 80, 480, 400); name := "cat"; score := b64 1 (-1) |}.
Definition det2 : detection spec_float :=
  {| box := (80, 240, 160, 479); name := "dog"; score := b64 3 (-2) |}.
End Example.
From Stdlib Require DecimalFacts DecimalPos DecimalZ Qcanon.


(** * The rest of [model.py]: model file, label file, configuration, overlay *)

(** ** [download] (lines 43 to 49) *)

(** The files [download] can see: the size in bytes of what is at a path,
    if anything is. *)
Definition filesystem : Type := string -> option Z.

(** How a call of [download] ends. *)
Inductive download_result : Type :=
| Kept          (* the early [return]: a large enough file was there *)
| Fetched       (* [urlretrieve] ran and the file passed the size check *)
| FetchRaised   (* [urlretrieve] raised *)
| TooSmall.     (* [RuntimeError("download failed or file too small")] *)

Section Download.
(** [urllib.request.urlretrieve(url, path)]: the file system it leaves, and
    whether it returned ([true]) or raised. *)
Variable urlretrieve : string -> string -> filesystem -> filesystem * bool.

(** [os.path.exists(path) and os.path.getsize(path) > 1_000_000] *)
Definition cached (fs : filesystem) (path : string) : bool :=
  match fs path with
  | Some size => 1000000 <? size
  | None => false
  end.

(** [not os.path.exists(path) or os.path.getsize(path) < 1_000_000] *)
Definition too_small (fs : filesystem) (path : string) : bool :=
  match fs path with
  | Some size => size <? 1000000
  | None => true
  end.

Definition download (url path : string) (fs : filesystem)
    : filesystem * download_result :=
  if cached fs path then (fs, Kept)
  else
    let '(fs', returned) := urlretrieve url path fs in
    if returned then
      if too_small fs' path then (fs', TooSmall) else (fs', Fetched)
    else (fs', FetchRaised).
End Download.

(** ** [load_labels_from_tflite] (lines 51 to 66)

    Text is taken over the code points below 256, the characters of
    [string]. *)

Definition code (c : ascii) : N := N_of_ascii c.

Definition in_range (lo hi n : N) : bool := ((lo <=? n) && (n <=? hi))%N.

(** [str.lower] on one character. *)
Definition lower_char (c : ascii) : ascii :=
  let n := code c in
  if in_range 65 90 n || in_range 192 214 n || in_range 216 222 n
  then ascii_of_N (n + 32)
  else c.

(** [c.isspace()] *)
Definition is_space (c : ascii) : bool :=
  let n := code c in
  in_range 9 13 n || in_range 28 32 n || (n =? 133)%N || (n =? 160)%N.

(** The line boundaries of [str.splitlines]. *)
Definition is_linebreak (c : ascii) : bool :=
  let n := code c in
  in_range 10 13 n || in_range 28 30 n || (n =? 133)%N.

Definition lower (s : list ascii) : list ascii := map lower_char s.

Fixpoint starts_with (p s : list ascii) : bool :=
  match p, s with
  | [], _ => true
  | a :: p', b :: s' => Ascii.eqb a b && starts_with p' s'
  | _ :: _, [] => false
  end.

(** [s.endswith(suf)] *)
Definition ends_with (suf s : list ascii) : bool :=
  starts_with (rev suf) (rev s).

(** [sub in s] *)
Fixpoint contains (sub s : list ascii) : bool :=
  starts_with sub s ||
  match s with
  | [] => false
  | _ :: s' => contains sub s'
  end.

(** [sorted(l, key=len)]: the stable sort, here by insertion from the
    right. *)
Fixpoint insert_by_len (x : string) (l : list string) : list string :=
  match l with
  | [] => [x]
  | y :: l' =>
      if (String.length x <=? String.length y)%nat then x :: y :: l'
      else y :: insert_by_len x l'
  end.

Definition sorted_by_len (l : list string) : list string :=
  fold_right insert_by_len [] l.

(** [txt.splitlines()]: [cur] holds the current line, last character
    first. *)
Fixpoint splitlines_from (cur : list ascii) (s : list ascii) : list (list ascii) :=
  match s with
  | [] => match cur with [] => [] | _ => [rev cur] end
  | c :: s' =>
      if is_linebreak c then
        match s' with
        | d :: s'' =>
            if Ascii.eqb c "013" && Ascii.eqb d "010"
            then rev cur :: splitlines_from [] s''
            else rev cur :: splitlines_from [] s'
        | [] => [rev cur]
        end
      else splitlines_from (c :: cur) s'
  end.

Definition splitlines (s : list ascii) : list (list ascii) := splitlines_from [] s.

Fixpoint lstrip (s : list ascii) : list ascii :=
  match s with
  | c :: s' => if is_space c then lstrip s' else s
  | [] => []
  end.

(** [ln.strip()] *)
Definition strip (s : list ascii) : list ascii :=
  rev (lstrip (rev (lstrip s))).

(** Line 63: [[ln.strip() for ln in txt.splitlines() if ln.strip()]] *)
Definition parse_labels (txt : string) : list string :=
  map string_of_list_ascii
    (filter (fun ln => negb (Nat.eqb (List.length ln) 0))
       (map strip (splitlines (list_ascii_of_string txt)))).

(** What opening the archive, or reading one of its members, gives. *)
Inductive zip_read (A : Type) : Type :=
| ZipOk (a : A)
| BadZipFile      (* caught by the [except] of line 64 *)
| ZipRaised.      (* any other exception: it leaves the function *)
Arguments ZipOk {A} a.
Arguments BadZipFile {A}.
Arguments ZipRaised {A}.

(** The members of an archive in directory order: their names, and the
    text [f.read().decode("utf-8", errors="ignore")] gives for each. *)
Definition archive : Type := list (string * zip_read string).

(** [zf.open(name)]: of several members of one name the last is opened. *)
Fixpoint open_member (name : string) (zf : archive) : option (zip_read string) :=
  match zf with
  | [] => None
  | (n, content) :: zf' =>
      match open_member name zf' with
      | Some c => Some c
      | None => if String.eqb n name then Some content else None
      end
  end.

Definition label_suffixes : list (list ascii) :=
  map list_ascii_of_string [".txt"; ".labels"; "labelmap"]%string.

(** Lines 57 and 59: the members that may hold the labels, shortest name
    first. *)
Definition label_candidates (zf : archive) : list string :=
  let cand :=
    filter (fun n => existsb (fun suf => ends_with suf (lower (list_ascii_of_string n)))
                       label_suffixes)
           (map fst zf) in
  sorted_by_len
    (filter (fun n => contains (list_ascii_of_string "label")
                        (lower (list_ascii_of_string n))) cand).

(** [load_labels_from_tflite]: [None] when an exception leaves it. *)
Definition load_labels_from_tflite (opened : zip_read archive) : option (list string) :=
  match opened with
  | ZipOk zf =>
      match label_candidates zf with
      | name :: _ =>
          match open_member name zf with
          | Some (ZipOk txt) => Some (parse_labels txt)
          | Some BadZipFile => Some []
          | Some ZipRaised => None
          | None => None        (* [KeyError]; a listed name is always found *)
          end
      | [] => Some []
      end
  | BadZipFile => Some []
  | ZipRaised => None
  end.

(** ** Quantization parameters (lines 117 and 154) *)

Section QuantizationParameters.
Context {F : Type} {PF : PyFloat F}.

(** [input_details[0].get("quantization", (0.0, 0)) or (0.0, 0)]; the
    entry is absent ([None]), or present and [None] ([Some None]), or a
    pair. *)
Definition quantization (entry : option (option (F * Z))) : F * Z :=
  match entry with
  | Some (Some p) => p
  | Some None => (of_int 0, 0)
  | None => (of_int 0, 0)
  end.

(** [in_scale or 0.0] *)
Definition scale_or_zero (in_scale : F) : F :=
  if fis_zero in_scale then of_int 0 else in_scale.

(** The call of line 154 on one sample. *)
Definition quantize_configured (in_dtype : dtype) (entry : option (option (F * Z)))
    (x : Z) : qval F :=
  let '(in_scale, in_zero) := quantization entry in
  quantize_elem in_dtype (scale_or_zero in_scale) in_zero x.
End QuantizationParameters.

(** ** The overlay of the display loop (lines 220 to 224) *)

Inductive shape : Type :=
| Rectangle (x y w h : Z)              (* [patches.Rectangle((x, y), w, h)] *)
| Text (x y : Z) (s : string).         (* [ax.text(x, y, s)] *)

Section Overlay.
Context {F : Type}.
(** [f"{s:.2f}"] *)
Variable format_score : F -> string.

Definition overlay_of (d : detection F) : list shape :=
  let '(x1, y1, x2, y2) := box d in
  [ Rectangle x1 y1 (x2 - x1) (y2 - y1);
    Text x1 (Z.max 0 (y1 - 5)) (name d ++ " " ++ format_score (score d))%string ].

Definition overlay (dets : list (detection F)) : list shape :=
  flat_map overlay_of dets.
End Overlay.

(** A shape lies in a [w x h] frame: a rectangle has a positive size and
    both corners on pixels of the frame, a text is anchored on one. *)
Definition in_frame (w h : Z) (s : shape) : Prop :=
  match s with
  | Rectangle x y rw rh =>
      0 < rw /\ 0 < rh /\ 0 <= x /\ x + rw <= w - 1 /\ 0 <= y /\ y + rh <= h - 1
  | Text x y _ => 0 <= x <= w - 1 /\ 0 <= y <= h - 1
  end.

(** ** What the label loader promises *)

(** A member name passes both tests of lines 57 and 59. *)
Definition is_label_file (n : string) : bool :=
  existsb (fun suf => ends_with suf (lower (list_ascii_of_string n))) label_suffixes
  && contains (list_ascii_of_string "label") (lower (list_ascii_of_string n)).

(** A label as the loader leaves it: not empty, no white space at either
    end, no line boundary inside. *)
Definition clean_label (l : string) : Prop :=
  let cs := list_ascii_of_string l in
  cs <> [] /\
  (forall c, hd_error cs = Some c -> is_space c = false) /\
  (forall c, hd_error (rev cs) = Some c -> is_space c = false) /\
  Forall (fun c => is_linebreak c = false) cs.

(** ["\n"] *)
Definition newline : string := String "010" EmptyString.

(** ** A worked deployment

    The model file of the script, fetched into an empty directory; an
    archive with two members named like label files; and one pass of the
    loop in rounded rational arithmetic. *)

Module Deployment.
Definition model_path : string := "efficientdet_lite2.tflite".
Definition model_url : string :=
  "https://tfhub.dev/tensorflow/lite-model/efficientdet/lite2/detection/metadata/1?lite-format=tflite".

Definition no_files : filesystem := fun _ => None.

(** A fetch that writes a file of exactly 1,000,000 bytes. *)
Definition fetch (url path : string) (fs : filesystem) : filesystem * bool :=
  ((fun p => if String.eqb p path then Some 1000000 else fs p), true).

Definition label_text : string :=
  String.concat newline ["person"; "  traffic light "; EmptyString; "car"]%string.

Definition model_archive : archive :=
  [ ("assets/labelmap_extended.txt", ZipOk "background");
    ("README.md", ZipOk "labels");
    ("labelmap.txt", ZipOk label_text);
    ("Labels_v2.TXT", ZipRaised);
    ("vocab.txt", ZipOk "a") ]%string.

Definition tick_idle : @tick spec_float spec_float :=
  {| tk_running := true; tk_frame := None;
     tk_invoke := fun _ => Raise BackendError; tk_now := Example.b64 1 0 |}.
Definition tick_stop : @tick spec_float spec_float :=
  {| tk_running := false; tk_frame := Some (Example.frame 480 640);
     tk_invoke := fun _ => Raise BackendError; tk_now := Example.b64 2 0 |}.

Definition rawQ : raw_output Q :=
  {| boxes := [ ((1 # 4)%Q, (1 # 4)%Q, (3 # 4)%Q, (3 # 4)%Q) ];
     classes := [ 0%Q ]; scores := [ (3 # 4)%Q ]; count := 1%Q |}.
Definition stQ : @pstate Q :=
  {| detections := []; fps := 0%Q; t_prev := 1%Q |}.
Definition tickQ : @tick spec_float Q :=
  {| tk_running := true; tk_frame := Some (Example.frame 48 64);
     tk_invoke := fun _ => Ok rawQ; tk_now := (3 # 2)%Q |}.
End Deployment.

(** * Properties *)

(** ** The result monad *)

Lemma bind_ok {A B : Type} (m : res A) (k : A -> res B) (b : B) :
  bind m k = Ok b -> exists a, m = Ok a /\ k a = Ok b.
Proof.
  destruct m as [a|e]; simpl; intros E; [exists a; auto | discriminate].
Qed.

Lemma index_ok {A : Type} (l : list A) (i : nat) (x : A) :
  index l i = Ok x <-> nth_error l i = Some x.
Proof.
  unfold index. destruct (nth_error l i); split; intros E; congruence.
Qed.

Ltac bind_inv H :=
  let a := fresh "a" in
  let E := fresh "E" in
  apply bind_ok in H; destruct H as (a & E & H).

(** ** Label resolution *)

(** C2: the label of class index [c] is [labels[c]] when [0 <= c < len(labels)],
    otherwise [labels[c-1]] when [1 <= c <= len(labels)], otherwise the
    placeholder [id:<c>]; on [["cat"; "dog"]] class 0 is "cat", class 2 is
    "dog" and class 5 is "id:5". *)
Theorem resolve_label_cases (labels : list string) (c : Z) :
  let n := Z.of_nat (List.length labels) in
  (0 <= c < n -> nth_error labels (Z.to_nat c) = Some (resolve_label labels c))
  /\ (~ 0 <= c < n -> 1 <= c <= n ->
      nth_error labels (Z.to_nat (c - 1)) = Some (resolve_label labels c))
  /\ (~ 0 <= c < n -> ~ 1 <= c <= n ->
      resolve_label labels c = ("id:" ++ str_of_int c)%string)
  /\ resolve_label ["cat"; "dog"]%string 0 = "cat"%string
  /\ resolve_label ["cat"; "dog"]%string 2 = "dog"%string
  /\ resolve_label ["cat"; "dog"]%string 5 = "id:5"%string.
Proof.
  cbv zeta. unfold resolve_label.
  repeat split; try reflexivity.
  - intros Hc.
    replace ((0 <=? c) && (c <? Z.of_nat (List.length labels))) with true
      by (symmetry; apply andb_true_iff; lia).
    apply nth_error_nth'. lia.
  - intros Hn Hc.
    replace ((0 <=? c) && (c <? Z.of_nat (List.length labels))) with false
      by (symmetry; apply andb_false_iff; lia).
    replace ((1 <=? c) && (c <=? Z.of_nat (List.length labels))) with true
      by (symmetry; apply andb_true_iff; lia).
    apply nth_error_nth'. lia.
  - intros Hn Hc.
    replace ((0 <=? c) && (c <? Z.of_nat (List.length labels))) with false
      by (symmetry; apply andb_false_iff; lia).
    replace ((1 <=? c) && (c <=? Z.of_nat (List.length labels))) with false
      by (symmetry; apply andb_false_iff; lia).
    reflexivity.
Qed.

(** ** Detection post-processor *)

Lemma clamp_ordered (d a b : Z) :
  clamp d a < clamp d b -> 0 <= clamp d a /\ clamp d b <= d - 1.
Proof. unfold clamp. lia. Qed.

Section PostProcessFacts.
Context {F : Type} {PF : PyFloat F}.
Variables (in_w in_h : Z) (labels : list string) (score_thresh : F).
Variables (raw : raw_output F) (scale : F) (left top : Z) (w h : Z).

Let body := loop_body in_w in_h labels score_thresh raw scale left top w h.
Let fbox := fun b => frame_box in_w in_h b scale left top w h.
Let below := below_threshold score_thresh raw.
Let elig := eligible score_thresh raw.
Let degen := degenerate_at in_w in_h raw scale left top w h.
Let det_at := detection_at in_w in_h labels raw scale left top w h.
Let defined := iteration_defined in_w in_h score_thresh raw scale left top w h.

Let bok := @box_ok F w h.

Lemma frame_box_clamped b x1 y1 x2 y2 :
  fbox b = Ok (x1, y1, x2, y2) ->
  exists a1 b1 a2 b2,
    x1 = clamp w a1 /\ y1 = clamp h b1 /\ x2 = clamp w a2 /\ y2 = clamp h b2.
Proof.
  unfold fbox, frame_box. destruct b as [[[ymin xmin] ymax] xmax].
  intros H. repeat bind_inv H. inversion H; subst. eauto 8.
Qed.

Lemma below_not_eligible i : below i -> elig i -> False.
Proof.
  intros (s & Hs & Hlt) (s' & Hs' & Hge). congruence.
Qed.

(** One iteration either leaves the list alone, because the score is
    below the threshold or the box is empty, or appends the detection
    made from raw detection [i]. *)
Lemma loop_body_step i dets dets' :
  body i dets = Ok dets' ->
  (dets' = dets /\ (below i \/ (elig i /\ degen i)))
  \/ (exists d, dets' = dets ++ [d] /\ elig i /\ det_at i d /\ bok d).
Proof.
  unfold body, loop_body. intros H.
  bind_inv H. apply index_ok in E.
  destruct (flt a score_thresh) eqn:Hlt.
  - inversion H; subst. left. split; [reflexivity|]. left. exists a. auto.
  - bind_inv H. apply index_ok in E0. bind_inv H. bind_inv H. apply index_ok in E2.
    bind_inv H. destruct a3 as [[[x1 y1] x2] y2].
    assert (He : elig i) by (exists a; auto).
    destruct ((x2 <=? x1) || (y2 <=? y1)) eqn:Hd.
    + inversion H; subst. left. split; [reflexivity|]. right. split; [exact He|].
      exists a2, x1, y1, x2, y2. repeat split; auto.
      apply orb_true_iff in Hd. lia.
    + inversion H; subst. right.
      eexists. split; [reflexivity|]. split; [exact He|]. split.
      * exists a, a0, a1, a2. simpl. auto 10.
      * apply orb_false_iff in Hd. destruct Hd as [Hx Hy].
        destruct (frame_box_clamped _ _ _ _ _ E3) as (a1' & b1 & a2' & b2 & -> & -> & -> & ->).
        unfold bok, box_ok. simpl.
        assert (clamp w a1' < clamp w a2') by lia.
        assert (clamp h b1 < clamp h b2) by lia.
        pose proof (clamp_ordered _ _ _ H0). pose proof (clamp_ordered _ _ _ H1).
        lia.
Qed.

Lemma loop_body_defined i dets :
  defined i -> exists dets', body i dets = Ok dets'.
Proof.
  intros (s & Hs & Hrest). unfold body, loop_body.
  apply index_ok in Hs. rewrite Hs. simpl.
  destruct (flt s score_thresh) eqn:Hlt; [eauto|].
  destruct (Hrest eq_refl) as (cf & c & b & bx & Hcf & Hc & Hb & Hbx).
  apply index_ok in Hcf, Hb. rewrite Hcf. simpl. rewrite Hc. simpl.
  rewrite Hb. simpl. fold (fbox b). unfold fbox. rewrite Hbx. simpl.
  destruct bx as [[[x1 y1] x2] y2].
  destruct ((x2 <=? x1) || (y2 <=? y1)); eauto.
Qed.

(** The loop over [a, a + k): what it appends to the list it starts
    from, and from which indices. *)
Lemma for_each_loop_body k : forall a dets0 dets,
  for_each body (seq a k) dets0 = Ok dets ->
  exists idx new,
    dets = dets0 ++ new /\
    StronglySorted lt idx /\
    Forall (fun i => a <= i < a + k)%nat idx /\
    Forall2 det_at idx new /\
    Forall elig idx /\
    Forall bok new /\
    (forall i, (a <= i < a + k)%nat -> ~ In i idx -> below i \/ (elig i /\ degen i)).
Proof.
  induction k as [|k IH]; intros a dets0 dets H; simpl in H.
  - inversion H; subst. exists [], []. rewrite app_nil_r.
    repeat split; auto using SSorted_nil. intros i Hi. lia.
  - bind_inv H. apply IH in H.
    destruct H as (idx & new & -> & Hs & Hr & Hd & He & Hb & Hdrop).
    apply loop_body_step in E.
    destruct E as [[-> Hwhy] | (d & -> & Hel & Hdet & Hbox)].
    + exists idx, new. repeat split; auto.
      * eapply Forall_impl; [|exact Hr]. simpl. intros; lia.
      * intros i Hi Hn. destruct (Nat.eq_dec i a) as [->|Hne]; [exact Hwhy|].
        apply Hdrop; [lia | exact Hn].
    + exists (a :: idx), (d :: new). rewrite <- app_assoc. simpl.
      repeat split; auto.
      * constructor; [exact Hs|]. eapply Forall_impl; [|exact Hr]. simpl. intros; lia.
      * constructor; [lia|]. eapply Forall_impl; [|exact Hr]. simpl. intros; lia.
      * intros i Hi Hn. apply Hdrop; [|intros Hin; apply Hn; right; exact Hin].
        assert (i <> a) by (intros ->; apply Hn; left; reflexivity). lia.
Qed.

Lemma for_each_loop_body_defined k : forall a dets0,
  (forall i, (a <= i < a + k)%nat -> defined i) ->
  exists dets, for_each body (seq a k) dets0 = Ok dets.
Proof.
  induction k as [|k IH]; intros a dets0 Hdef; simpl.
  - eauto.
  - destruct (loop_body_defined a dets0) as (dets1 & E); [apply Hdef; lia|].
    rewrite E. simpl. apply IH. intros i Hi. apply Hdef. lia.
Qed.
End PostProcessFacts.

Section PostProcessProperties.
Context {F : Type} {PF : PyFloat F}.
Variables (in_w in_h : Z) (labels : list string) (score_thresh : F).
Variables (raw : raw_output F) (scale : F) (left top : Z) (w h : Z).

(** C1: the post-processor is a stable, order-preserving filter.  When
    every step of the loop that is reached returns a value, it returns the
    detections made from a strictly increasing list [idx] of indices below
    [count], in that order (so nothing is re-sorted); a raw detection whose
    score is below the threshold is not in [idx]; one whose score is not
    below the threshold is eligible: it is in [idx] unless its frame box is
    empty. *)
Theorem post_process_stable_filter (n : Z) :
  to_int (count raw) = Ok n ->
  (forall i, (i < Z.to_nat n)%nat ->
     iteration_defined in_w in_h score_thresh raw scale left top w h i) ->
  exists dets idx,
    post_process in_w in_h labels score_thresh raw scale left top w h = Ok dets /\
    StronglySorted lt idx /\
    Forall2 (detection_at in_w in_h labels raw scale left top w h) idx dets /\
    (forall i, In i idx -> (i < Z.to_nat n)%nat /\ eligible score_thresh raw i) /\
    (forall i, below_threshold score_thresh raw i -> ~ In i idx) /\
    (forall i, (i < Z.to_nat n)%nat -> eligible score_thresh raw i ->
       In i idx \/ degenerate_at in_w in_h raw scale left top w h i).
Proof.
  intros Hn Hdef. unfold post_process. rewrite Hn. simpl. unfold py_range.
  destruct (for_each_loop_body_defined in_w in_h labels score_thresh raw scale
              left top w h (Z.to_nat n) 0%nat []) as (dets & E).
  { intros i Hi. apply Hdef. lia. }
  destruct (for_each_loop_body _ _ _ _ _ _ _ _ _ _ _ _ _ _ E)
    as (idx & new & -> & Hs & Hr & Hd & He & _ & Hdrop).
  rewrite Forall_forall in Hr, He.
  exists new, idx. simpl. rewrite E.
  split; [reflexivity|]. split; [exact Hs|]. split; [exact Hd|].
  split; [|split].
  - intros i Hin. split; [apply Hr in Hin; lia | apply He; exact Hin].
  - intros i Hb Hin. apply He in Hin.
    eapply below_not_eligible; eauto.
  - intros i Hi Hel.
    destruct (in_dec Nat.eq_dec i idx) as [Hin|Hnin]; [left; exact Hin|].
    right. destruct (Hdrop i) as [Hb | [_ Hg]]; auto; [lia|].
    exfalso. eapply below_not_eligible; eauto.
Qed.

(** C3: every detection the post-processor returns has [x1 < x2],
    [y1 < y2] and all four coordinates inside the frame, [0 .. w-1] for
    x and [0 .. h-1] for y; and no detection it returns is made from a raw
    detection whose de-letterboxed, clamped box is empty. *)
Theorem post_process_box_invariant (dets : list (detection F)) :
  post_process in_w in_h labels score_thresh raw scale left top w h = Ok dets ->
  (forall d, In d dets -> box_ok w h d) /\
  (forall i d, In d dets ->
     detection_at in_w in_h labels raw scale left top w h i d ->
     ~ degenerate_at in_w in_h raw scale left top w h i).
Proof.
  unfold post_process. intros H. bind_inv H.
  apply for_each_loop_body in H.
  destruct H as (idx & new & -> & _ & _ & _ & _ & Hb & _). simpl.
  rewrite Forall_forall in Hb. split; [exact Hb|].
  intros i d Hin (s & cf & c & b & _ & _ & _ & Hbi & Hbox & _)
    (b' & x1 & y1 & x2 & y2 & Hbi' & Hbox' & Hdeg).
  apply Hb in Hin. unfold box_ok in Hin.
  assert (b' = b) by congruence. subst b'.
  rewrite Hbox in Hbox'. inversion Hbox' as [Hd]. rewrite Hd in Hin. lia.
Qed.
End PostProcessProperties.

(** On the worked configuration: raw detections 0 and 2 are returned, in
    that order, although the later one has the higher score; detection 1 is
    below the threshold and detection 3 has an empty box. *)
Lemma post_process_example :
  @post_process _ SF64 320 320 Example.labels Example.score_thresh Example.raw
    Example.scale Example.left Example.top 640 480
  = Ok [Example.det0; Example.det2].
Proof. vm_compute. reflexivity. Qed.

Lemma post_process_stable_filter_witness :
  exists dets idx,
    @post_process _ SF64 320 320 Example.labels Example.score_thresh Example.raw
      Example.scale Example.left Example.top 640 480 = Ok dets /\
    StronglySorted lt idx /\
    Forall2 (@detection_at _ SF64 320 320 Example.labels Example.raw
               Example.scale Example.left Example.top 640 480) idx dets /\
    (forall i, In i idx ->
       (i < Z.to_nat 4)%nat /\ @eligible _ SF64 Example.score_thresh Example.raw i) /\
    (forall i, @below_threshold _ SF64 Example.score_thresh Example.raw i -> ~ In i idx) /\
    (forall i, (i < Z.to_nat 4)%nat ->
       @eligible _ SF64 Example.score_thresh Example.raw i ->
       In i idx \/ @degenerate_at _ SF64 320 320 Example.raw Example.scale
                     Example.left Example.top 640 480 i).
Proof.
  apply (@post_process_stable_filter _ SF64 320 320 Example.labels
           Example.score_thresh Example.raw Example.scale Example.left
           Example.top 640 480 4).
  - vm_compute. reflexivity.
  - intros i Hi.
    destruct i as [|[|[|[|i]]]]; [ | | | | simpl in Hi; lia ];
      eexists; (split; [reflexivity|]); intros Hlt;
      try (vm_compute in Hlt; discriminate Hlt);
      do 4 eexists; repeat split; vm_compute; reflexivity.
Defined.

Lemma post_process_box_invariant_witness :
  (forall d, In d [Example.det0; Example.det2] -> @box_ok spec_float 640 480 d) /\
  (forall i d, In d [Example.det0; Example.det2] ->
     @detection_at _ SF64 320 320 Example.labels Example.raw Example.scale
       Example.left Example.top 640 480 i d ->
     ~ @degenerate_at _ SF64 320 320 Example.raw Example.scale Example.left
         Example.top 640 480 i).
Proof.
  apply (@post_process_box_invariant _ SF64 320 320 Example.labels
           Example.score_thresh Example.raw Example.scale Example.left
           Example.top 640 480 [Example.det0; Example.det2]).
  vm_compute. reflexivity.
Defined.

(** ** Letterbox on an empty source *)






(** A 640-column frame without rows letterboxed into 320 x 320: the scale
    is 0.5 and the resize is asked for a 320 x 0 image; a frame without
    rows and columns ends in [int(nan)]. *)
Lemma letterbox_dims_empty_frames :
  @letterbox_dims _ SF64 (Example.frame 0 640) 320 320
    = Ok (Example.b64 1 (-1), 320, 0) /\
  @letterbox_dims _ SF64 (Example.frame 0 0) 320 320 = Raise ValueError.
Proof. split; vm_compute; reflexivity. Qed.


(** ** Errors in the inference loop *)

Section LoopErrors.
Context {F32 F64 : Type} {P32 : PyFloat F32} {P64 : PyFloat F64}.
Variables cv_resize pil_resize : image -> Z -> Z -> res image.
Variables (in_w in_h : Z) (in_dtype : dtype) (in_scale : F32) (in_zero : Z).
Variables (labels : list string) (score_thresh : F64).

(** C9, as the code has it: the loop has no handler.  When the passes
    [pre] complete and leave the state [st'], and the cycle of the next
    pass raises [e], the loop ends there with [e]: the passes after it are
    not run, and the published state stays [st']. *)
Theorem detection_loop_stops_at_first_error
    (pre : list tick) (tk : tick) (frame : image) (rest : list tick)
    (st st' : pstate) (e : exn) :
  detection_loop cv_resize pil_resize in_w in_h in_dtype in_scale in_zero
    labels score_thresh pre st = (st', StillRunning) ->
  tk_running tk = true ->
  tk_frame tk = Some frame ->
  cycle cv_resize pil_resize in_w in_h in_dtype in_scale in_zero
    labels score_thresh tk frame st' = Raise e ->
  detection_loop cv_resize pil_resize in_w in_h in_dtype in_scale in_zero
    labels score_thresh (pre ++ tk :: rest) st = (st', Crashed e).
Proof.
  revert st.
  induction pre as [|tk0 pre IH]; intros st Hpre Hrun Hframe Hcyc; simpl in *.
  - inversion Hpre; subst. rewrite Hrun, Hframe, Hcyc. reflexivity.
  - destruct (tk_running tk0); simpl in *; [|discriminate].
    destruct (tk_frame tk0) as [f0|]; [|auto].
    destruct (cycle _ _ _ _ _ _ _ _ _ tk0 f0 st) as [st1|e1]; [auto|discriminate].
Qed.
End LoopErrors.

(** A cycle that completes publishes what the post-processor returned on
    the interpreter's output for the letterboxed, quantized frame. *)
Lemma cycle_publishes {F32 F64 : Type} {P32 : PyFloat F32} {P64 : PyFloat F64}
    (cv_resize pil_resize : image -> Z -> Z -> res image)
    (in_w in_h : Z) (in_dtype : dtype) (in_scale : F32) (in_zero : Z)
    (labels : list string) (score_thresh : F64)
    (tk : tick) (frame : image) (st st' : pstate) :
  cycle cv_resize pil_resize in_w in_h in_dtype in_scale in_zero labels
    score_thresh tk frame st = Ok st' ->
  exists lb_img scale left top raw,
    letterbox cv_resize pil_resize frame in_w in_h = Ok (lb_img, scale, left, top) /\
    tk_invoke tk (quantize_input lb_img in_dtype in_scale in_zero) = Ok raw /\
    post_process in_w in_h labels score_thresh raw scale left top
      (Z.of_nat (width frame)) (Z.of_nat (height frame)) = Ok (detections st') /\
    t_prev st' = tk_now tk.
Proof.
  unfold cycle. intros H.
  bind_inv H. destruct a as [[[lb_img scale] left] top].
  bind_inv H. bind_inv H. bind_inv H. inversion H; subst. simpl.
  exists lb_img, scale, left, top, a. auto.
Qed.

(** C9, as the specification has it, fails: the interpreter call of the
    first pass raises, the loop ends with that error, and the second pass,
    which alone would publish two detections, is never run. *)
Lemma detection_loop_error_escapes :
  Example.run [Example.tick_fail; Example.tick_good] Example.st0
    = (Example.st0, Crashed BackendError) /\
  detections (fst (Example.run [Example.tick_good] Example.st0))
    = [Example.det0; Example.det2].
Proof. split; vm_compute; reflexivity. Qed.

Lemma detection_loop_stops_at_first_error_witness :
  Example.run ([Example.tick_good] ++ Example.tick_fail :: [Example.tick_good])
    Example.st0
  = (fst (Example.run [Example.tick_good] Example.st0), Crashed BackendError).
Proof.
  apply (@detection_loop_stops_at_first_error _ _ SF32 SF64 nn_resize nn_resize
           320 320 UInt8 (S754_zero false) 0 Example.labels Example.score_thresh
           [Example.tick_good] Example.tick_fail (Example.frame 480 640)
           [Example.tick_good] Example.st0
           (fst (Example.run [Example.tick_good] Example.st0)) BackendError).
  - vm_compute. reflexivity.
  - reflexivity.
  - reflexivity.
  - vm_compute. reflexivity.
Defined.


(** ** Powers of two and rounding on the rationals *)

Lemma pow2_pos (e : Z) : (0 < pow2 e)%Q.
Proof. apply Qpower_0_lt. reflexivity. Qed.

Lemma pow2_add (a b : Z) : (pow2 (a + b) == pow2 a * pow2 b)%Q.
Proof. apply Qpower_plus. discriminate. Qed.

Lemma pow2_inject (n : Z) : 0 <= n -> (pow2 n == inject_Z (2 ^ n))%Q.
Proof. intros H. unfold pow2. rewrite Zpower_Qpower by exact H. reflexivity. Qed.

Lemma pow2_0 : (pow2 0 == 1)%Q.
Proof. reflexivity. Qed.

Lemma pow2_le (a b : Z) : a <= b -> (pow2 a <= pow2 b)%Q.
Proof. intros H. apply Qpower_le_compat_l; [exact H | discriminate]. Qed.

Lemma pow2_lt_inv (a b : Z) : (pow2 a < pow2 b)%Q -> a < b.
Proof. intros H. apply (Qpower_lt_compat_l_inv 2); [exact H | reflexivity]. Qed.

Lemma Qrint_bounds (x : Q) :
  (x - (1 # 2) <= inject_Z (Qrint x) <= x + (1 # 2))%Q.
Proof.
  unfold Qrint.
  pose proof (Qfloor_le x) as Hlo. pose proof (Qlt_floor x) as Hhi.
  rewrite inject_Z_plus in Hhi. change (inject_Z 1) with 1%Q in Hhi.
  destruct (Qcompare (x - inject_Z (Qfloor x)) (1 # 2)) eqn:C.
  - apply Qeq_alt in C. destruct (Z.even (Qfloor x));
      rewrite ?inject_Z_plus; change (inject_Z 1) with 1%Q; split; lra.
  - apply Qlt_alt in C. split; lra.
  - apply Qgt_alt in C. rewrite inject_Z_plus. change (inject_Z 1) with 1%Q. split; lra.
Qed.

Lemma Qrint_eq (x y : Q) : (x == y)%Q -> Qrint x = Qrint y.
Proof.
  intros E. unfold Qrint. rewrite (Qfloor_comp _ _ E).
  assert (E' : (x - inject_Z (Qfloor y) == y - inject_Z (Qfloor y))%Q) by (rewrite E; reflexivity).
  rewrite (Qcompare_comp _ _ E' _ _ (Qeq_refl _)). reflexivity.
Qed.

Lemma Qrint_Z (n : Z) : Qrint (inject_Z n) = n.
Proof.
  unfold Qrint. rewrite Qfloor_Z.
  assert (E : (inject_Z n - inject_Z n == 0)%Q) by ring.
  rewrite (Qcompare_comp _ _ E _ _ (Qeq_refl _)). reflexivity.
Qed.

Lemma Qtrunc_floor (q : Q) : (0 <= q)%Q -> Qtrunc q = Qfloor q.
Proof.
  intros H. unfold Qtrunc. destruct q as [n d]. simpl.
  unfold Qle in H. simpl in H.
  apply Z.quot_div_nonneg; lia.
Qed.

Lemma Qtrunc_bounds (q : Q) :
  (0 <= q)%Q -> 0 <= Qtrunc q /\ (inject_Z (Qtrunc q) <= q < inject_Z (Qtrunc q) + 1)%Q.
Proof.
  intros H. rewrite (Qtrunc_floor _ H). split.
  - rewrite <- (Qfloor_Z 0). apply Qfloor_resp_le. exact H.
  - split; [apply Qfloor_le|]. pose proof (Qlt_floor q) as L.
    rewrite inject_Z_plus in L. exact L.
Qed.

Lemma ilog2_spec (q : Q) :
  (0 < q)%Q -> (pow2 (ilog2 q) <= q < pow2 (ilog2 q + 1))%Q.
Proof.
  intros Hq. destruct q as [n d].
  assert (Hn : 0 < n) by (unfold Qlt in Hq; simpl in Hq; lia).
  unfold ilog2. simpl Qnum. simpl Qden.
  set (a := Z.log2 n). set (b := Z.log2 (Zpos d)).
  pose proof (Z.log2_spec n Hn) as [Ha1 Ha2]. fold a in Ha1, Ha2.
  pose proof (Z.log2_spec (Zpos d) (Pos2Z.is_pos d)) as [Hb1 Hb2]. fold b in Hb1, Hb2.
  assert (Ha0 : 0 <= a) by apply Z.log2_nonneg.
  assert (Hb0 : 0 <= b) by apply Z.log2_nonneg.
  rewrite Zle_Qle, <- pow2_inject in Ha1, Hb1 by lia.
  rewrite Zlt_Qlt, <- pow2_inject in Ha2, Hb2 by lia.
  assert (Hd : (0 < inject_Z (Zpos d))%Q) by reflexivity.
  assert (E : ((n # d) * inject_Z (Zpos d) == inject_Z n)%Q).
  { rewrite Qmake_Qdiv. field. intros Z0. rewrite Z0 in Hd. discriminate Hd. }
  set (q := (n # d)%Q) in *. set (qn := inject_Z n) in *. set (qd := inject_Z (Zpos d)) in *.
  pose proof (pow2_pos (a - b)) as Pk. pose proof (pow2_pos (a - b + 1)) as Pk1.
  pose proof (pow2_pos (a - b - 1)) as Pk0. pose proof (pow2_pos b) as Pb.
  assert (E1 : (pow2 (a - b + 1) * pow2 b == pow2 (Z.succ a))%Q).
  { rewrite <- pow2_add. replace (a - b + 1 + b) with (Z.succ a) by lia. reflexivity. }
  assert (E0 : (pow2 (a - b - 1) * pow2 (Z.succ b) == pow2 a)%Q).
  { rewrite <- pow2_add. replace (a - b - 1 + Z.succ b) with a by lia. reflexivity. }
  destruct (Qle_bool (pow2 (a - b)) q) eqn:C.
  - apply Qle_bool_iff in C. split; [exact C|].
    apply Qnot_le_lt. intros Hc.
    assert (pow2 (a - b + 1) * qd <= q * qd)%Q by (apply Qmult_le_compat_r; lra).
    assert (pow2 (a - b + 1) * pow2 b <= pow2 (a - b + 1) * qd)%Q
      by (rewrite !(Qmult_comm (pow2 (a - b + 1))); apply Qmult_le_compat_r; lra).
    lra.
  - assert (C' : (q < pow2 (a - b))%Q).
    { apply Qnot_le_lt. intros Hc. apply Qle_bool_iff in Hc. congruence. }
    replace (a - b - 1 + 1) with (a - b) by lia. split; [|exact C'].
    apply Qnot_lt_le. intros Hc.
    assert (q * qd < pow2 (a - b - 1) * qd)%Q by (apply Qmult_lt_compat_r; lra).
    assert (pow2 (a - b - 1) * qd <= pow2 (a - b - 1) * pow2 (Z.succ b))%Q
      by (rewrite !(Qmult_comm (pow2 (a - b - 1))); apply Qmult_le_compat_r; lra).
    lra.
Qed.

Lemma ilog2_unique (q : Q) (k : Z) :
  (pow2 k <= q < pow2 (k + 1))%Q -> ilog2 q = k.
Proof.
  intros [H1 H2].
  assert (Hq : (0 < q)%Q) by (pose proof (pow2_pos k); lra).
  destruct (ilog2_spec q Hq) as [L1 L2].
  assert (k < ilog2 q + 1) by (apply pow2_lt_inv; lra).
  assert (ilog2 q < k + 1) by (apply pow2_lt_inv; lra).
  lia.
Qed.

Lemma ilog2_eq (x y : Q) : (0 < x)%Q -> (x == y)%Q -> ilog2 x = ilog2 y.
Proof.
  intros Hx E. apply ilog2_unique. rewrite E.
  apply ilog2_spec. rewrite <- E. exact Hx.
Qed.

Lemma rnd_to_eq (p : Z) (x y : Q) : (x == y)%Q -> rnd_to p x = rnd_to p y.
Proof.
  intros E. unfold rnd_to.
  destruct (Qeq_bool x 0) eqn:Cx; destruct (Qeq_bool y 0) eqn:Cy.
  - reflexivity.
  - apply Qeq_bool_iff in Cx. rewrite E in Cx. apply Qeq_bool_iff in Cx. congruence.
  - apply Qeq_bool_iff in Cy. rewrite <- E in Cy. apply Qeq_bool_iff in Cy. congruence.
  - assert (Hx : ~ (x == 0)%Q) by (intros Z0; apply Qeq_bool_iff in Z0; congruence).
    assert (Ha : (0 < Qabs x)%Q).
    { destruct (Qlt_le_dec 0 x) as [P|N].
      - rewrite Qabs_pos; lra.
      - rewrite Qabs_neg by exact N.
        apply Qle_lteq in N. destruct N as [N|N]; [lra | contradiction]. }
    assert (Ea : (Qabs x == Qabs y)%Q) by (rewrite E; reflexivity).
    rewrite (ilog2_eq _ _ Ha Ea).
    apply Qred_complete.
    rewrite (Qrint_eq (x / pow2 (ilog2 (Qabs y) - (p - 1)))
                      (y / pow2 (ilog2 (Qabs y) - (p - 1)))) by (rewrite E; reflexivity).
    reflexivity.
Qed.

Lemma rnd_to_0 (p : Z) (x : Q) : (x == 0)%Q -> rnd_to p x = 0%Q.
Proof.
  intros E. unfold rnd_to. apply Qeq_bool_iff in E. rewrite E. reflexivity.
Qed.

Lemma rnd_to_pos (p : Z) (q : Q) :
  (0 < q)%Q ->
  (rnd_to p q ==
   inject_Z (Qrint (q / pow2 (ilog2 q - (p - 1)))) * pow2 (ilog2 q - (p - 1)))%Q.
Proof.
  intros Hq. unfold rnd_to.
  destruct (Qeq_bool q 0) eqn:C.
  - apply Qeq_bool_iff in C. lra.
  - rewrite Qred_correct.
    assert (Ea : (Qabs q == q)%Q) by (apply Qabs_pos; lra).
    assert (Ha : (0 < Qabs q)%Q) by lra.
    rewrite (ilog2_eq _ _ Ha Ea). reflexivity.
Qed.

(** Relative error of rounding to [p] bits: at most [2^-p]. *)
Lemma rnd_to_bounds (p : Z) (q : Q) :
  (0 < q)%Q ->
  (q * (1 - pow2 (- p)) <= rnd_to p q <= q * (1 + pow2 (- p)))%Q.
Proof.
  intros Hq. rewrite (rnd_to_pos p q Hq).
  set (e := ilog2 q - (p - 1)).
  pose proof (pow2_pos e) as Pe.
  pose proof (Qrint_bounds (q / pow2 e)) as [B1 B2].
  set (m := inject_Z (Qrint (q / pow2 e))) in *.
  assert (X : (q / pow2 e * pow2 e == q)%Q) by (field; lra).
  set (x := (q / pow2 e)%Q) in *.
  destruct (ilog2_spec q Hq) as [L _].
  assert (Ee : (pow2 e == pow2 (ilog2 q) * (2 * pow2 (- p)))%Q).
  { unfold e. replace (ilog2 q - (p - 1)) with (ilog2 q + (1 + - p)) by lia.
    rewrite !pow2_add. reflexivity. }
  pose proof (pow2_pos (- p)) as Pp. pose proof (pow2_pos (ilog2 q)) as Pk.
  assert (H1 : ((x - (1 # 2)) * pow2 e <= m * pow2 e)%Q) by (apply Qmult_le_compat_r; lra).
  assert (H2 : (m * pow2 e <= (x + (1 # 2)) * pow2 e)%Q) by (apply Qmult_le_compat_r; lra).
  assert (H3 : (pow2 (ilog2 q) * pow2 (- p) <= q * pow2 (- p))%Q)
    by (apply Qmult_le_compat_r; lra).
  split; nra.
Qed.

Lemma rnd_to_nonneg (p : Z) (q : Q) : (0 <= q)%Q -> (0 <= rnd_to p q)%Q.
Proof.
  intros Hq. apply Qle_lteq in Hq. destruct Hq as [Hq|Hq].
  - rewrite (rnd_to_pos p q Hq).
    apply Qmult_le_0_compat; [|apply Qlt_le_weak, pow2_pos].
    pose proof (pow2_pos (ilog2 q - (p - 1))) as Pe.
    assert (0 <= Qrint (q / pow2 (ilog2 q - (p - 1)))).
    { unfold Qrint.
      assert (0 <= Qfloor (q / pow2 (ilog2 q - (p - 1)))).
      { rewrite <- (Qfloor_Z 0). apply Qfloor_resp_le.
        apply Qle_shift_div_l; [exact Pe|]. rewrite Qmult_0_l. apply Qlt_le_weak, Hq. }
      destruct (Qcompare _ _); [destruct (Z.even _)| |]; lia. }
    change 0%Q with (inject_Z 0). rewrite <- Zle_Qle. exact H.
  - rewrite (rnd_to_0 p q) by (symmetry; exact Hq). lra.
Qed.

(** Integers below [2^p] are representable. *)
Lemma rnd_to_int (p n : Z) :
  0 <= n < 2 ^ p -> (rnd_to p (inject_Z n) == inject_Z n)%Q.
Proof.
  intros [Hn Hp].
  destruct (Z.eq_dec n 0) as [->|Hne]; [reflexivity|].
  assert (Hp0 : 0 <= p) by (destruct p; try lia; simpl in Hp; lia).
  assert (Hq : (0 < inject_Z n)%Q) by (change 0%Q with (inject_Z 0); rewrite <- Zlt_Qlt; lia).
  rewrite (rnd_to_pos p _ Hq).
  destruct (ilog2_spec _ Hq) as [L _].
  set (k := ilog2 (inject_Z n)) in *.
  assert (Hk : k < p).
  { apply pow2_lt_inv. eapply Qle_lt_trans; [exact L|].
    rewrite pow2_inject by lia. rewrite <- Zlt_Qlt. exact Hp. }
  set (e := k - (p - 1)).
  assert (Ee : (pow2 e * pow2 (- e) == 1)%Q).
  { rewrite <- pow2_add. replace (e + - e) with 0 by lia. reflexivity. }
  pose proof (pow2_pos e) as Pe.
  assert (Ex : (inject_Z n / pow2 e == inject_Z (n * 2 ^ (- e)))%Q).
  { rewrite inject_Z_mult, <- pow2_inject by (unfold e; lia).
    setoid_replace (inject_Z n) with (inject_Z n * (pow2 e * pow2 (- e)))%Q at 1
      by (rewrite Ee; ring).
    field. lra. }
  rewrite (Qrint_eq _ _ Ex), Qrint_Z.
  rewrite inject_Z_mult, <- pow2_inject by (unfold e; lia).
  rewrite <- Qmult_assoc, (Qmult_comm (pow2 (- e))), Ee. ring.
Qed.

(** ** Letterbox geometry in rounded arithmetic *)


Section RoundedLetterbox.
Variable rnd : Q -> Q.
Variables (eps : Q) (B : Z).
Hypothesis rnd_eq : forall x y, (x == y)%Q -> (rnd x == rnd y)%Q.
Hypothesis rnd_int : forall n, 0 <= n < B -> (rnd (inject_Z n) == inject_Z n)%Q.
Hypothesis rnd_bounds :
  forall q, (0 <= q)%Q -> (q * (1 - eps) <= rnd q <= q * (1 + eps))%Q.
Hypothesis eps_small : (0 <= eps)%Q /\ (inject_Z B * (4 * eps) <= 1)%Q.

Lemma RQ_of_int (n : Z) : 0 <= n < B -> (@of_int Q (RQ rnd) n == inject_Z n)%Q.
Proof.
  intros Hn. unfold of_int. simpl.
  rewrite (rnd_eq (inject_Z n * pow2 0) (inject_Z n)) by (rewrite pow2_0; ring).
  apply rnd_int. exact Hn.
Qed.

Lemma RQ_py_min (a b : Q) :
  (@py_min Q (RQ rnd) a b <= a)%Q /\ (@py_min Q (RQ rnd) a b <= b)%Q /\
  (@py_min Q (RQ rnd) a b = a \/ @py_min Q (RQ rnd) a b = b).
Proof.
  unfold py_min. simpl. unfold Qltb.
  destruct (Qcompare b a) eqn:C.
  - apply Qeq_alt in C. repeat split; auto; lra.
  - apply Qlt_alt in C. repeat split; auto; lra.
  - apply Qgt_alt in C. repeat split; auto; lra.
Qed.

Lemma eps_lt_1 : 2 <= B -> (eps <= 1 # 8)%Q.
Proof.
  intros HB. destruct eps_small as [E0 E1].
  assert (2 <= inject_Z B)%Q by (change 2%Q with (inject_Z 2); rewrite <- Zle_Qle; exact HB).
  nra.
Qed.

(** The quotient [a / b] of two ints as the model computes it. *)
Lemma RQ_quotient (a b : Z) :
  1 <= a < B -> 1 <= b < B ->
  let q := rnd (@of_int Q (RQ rnd) a / @of_int Q (RQ rnd) b)%Q in
  (0 < q)%Q /\
  (inject_Z a * (1 - eps) <= q * inject_Z b)%Q /\
  (q * inject_Z b <= inject_Z a * (1 + eps))%Q.
Proof.
  intros Ha Hb q.
  assert (Ea := RQ_of_int a ltac:(lia)). assert (Eb := RQ_of_int b ltac:(lia)).
  assert (Pa : (1 <= inject_Z a)%Q) by (change 1%Q with (inject_Z 1); rewrite <- Zle_Qle; lia).
  assert (Pb : (1 <= inject_Z b)%Q) by (change 1%Q with (inject_Z 1); rewrite <- Zle_Qle; lia).
  assert (Eq : (q == rnd (inject_Z a / inject_Z b))%Q).
  { unfold q. apply rnd_eq. rewrite Ea, Eb. reflexivity. }
  assert (X : (inject_Z a / inject_Z b * inject_Z b == inject_Z a)%Q) by (field; lra).
  set (x := (inject_Z a / inject_Z b)%Q) in *.
  assert (Px : (0 < x)%Q) by (apply Qlt_shift_div_l; lra).
  destruct (rnd_bounds x ltac:(lra)) as [L U].
  pose proof (eps_lt_1 ltac:(lia)) as E8. destruct eps_small as [E0 _].
  rewrite Eq.
  assert (L' : (x * (1 - eps) * inject_Z b <= rnd x * inject_Z b)%Q)
    by (apply Qmult_le_compat_r; lra).
  assert (U' : (rnd x * inject_Z b <= x * (1 + eps) * inject_Z b)%Q)
    by (apply Qmult_le_compat_r; lra).
  repeat split; nra.
Qed.

(** The scale and the resized size on an image of [h x w] pixels and a
    [new_h x new_w] target, all below [B]. *)
Lemma RQ_letterbox_dims (img : image) (new_w new_h : Z) :
  let w := Z.of_nat (width img) in
  let h := Z.of_nat (height img) in
  1 <= w < B -> 1 <= h < B -> 1 <= new_w < B -> 1 <= new_h < B ->
  exists scale nw nh,
    @letterbox_dims Q (RQ rnd) img new_w new_h = Ok (scale, nw, nh) /\
    (0 < scale)%Q /\
    (scale * inject_Z w <= inject_Z new_w * (1 + eps))%Q /\
    (scale * inject_Z h <= inject_Z new_h * (1 + eps))%Q /\
    0 <= nw <= new_w /\ 0 <= nh <= new_h /\
    (inject_Z w * scale * (1 - eps) - 1 < inject_Z nw
       <= inject_Z w * scale * (1 + eps))%Q /\
    (inject_Z h * scale * (1 - eps) - 1 < inject_Z nh
       <= inject_Z h * scale * (1 + eps))%Q.
Proof.
  intros w h Hw Hh HW HH.
  unfold letterbox_dims, np_truediv. fold w h. cbv zeta.
  destruct (RQ_quotient new_w w HW Hw) as (Pa & La & Ua).
  destruct (RQ_quotient new_h h HH Hh) as (Pb & Lb & Ub).
  set (a := @fdiv Q (RQ rnd) (@of_int Q (RQ rnd) new_w) (@of_int Q (RQ rnd) w)).
  set (b := @fdiv Q (RQ rnd) (@of_int Q (RQ rnd) new_h) (@of_int Q (RQ rnd) h)).
  change (rnd (@of_int Q (RQ rnd) new_w / @of_int Q (RQ rnd) w)) with a in *.
  change (rnd (@of_int Q (RQ rnd) new_h / @of_int Q (RQ rnd) h)) with b in *.
  destruct (RQ_py_min a b) as (Ma & Mb & Mc).
  set (scale := @py_min Q (RQ rnd) a b) in *.
  assert (Ps : (0 < scale)%Q) by (destruct Mc as [-> | ->]; assumption).
  assert (Pw : (1 <= inject_Z w)%Q) by (change 1%Q with (inject_Z 1); rewrite <- Zle_Qle; lia).
  assert (Ph : (1 <= inject_Z h)%Q) by (change 1%Q with (inject_Z 1); rewrite <- Zle_Qle; lia).
  assert (PW : (1 <= inject_Z new_w)%Q) by (change 1%Q with (inject_Z 1); rewrite <- Zle_Qle; lia).
  assert (PH : (1 <= inject_Z new_h)%Q) by (change 1%Q with (inject_Z 1); rewrite <- Zle_Qle; lia).
  assert (BW : (inject_Z new_w <= inject_Z B)%Q) by (rewrite <- Zle_Qle; lia).
  assert (BH : (inject_Z new_h <= inject_Z B)%Q) by (rewrite <- Zle_Qle; lia).
  pose proof (eps_lt_1 ltac:(lia)) as E8. destruct eps_small as [E0 E1].
  assert (Sw : (scale * inject_Z w <= inject_Z new_w * (1 + eps))%Q).
  { apply Qle_trans with (a * inject_Z w)%Q; [apply Qmult_le_compat_r; lra | exact Ua]. }
  assert (Sh : (scale * inject_Z h <= inject_Z new_h * (1 + eps))%Q).
  { apply Qle_trans with (b * inject_Z h)%Q; [apply Qmult_le_compat_r; lra | exact Ub]. }
  cbn [to_int RQ]. cbn [bind].
  set (tw := @fmul Q (RQ rnd) (@of_int Q (RQ rnd) w) scale).
  set (th := @fmul Q (RQ rnd) (@of_int Q (RQ rnd) h) scale).
  assert (Etw : (tw == rnd (inject_Z w * scale))%Q).
  { unfold tw. simpl. apply rnd_eq. rewrite (RQ_of_int w) by lia. reflexivity. }
  assert (Eth : (th == rnd (inject_Z h * scale))%Q).
  { unfold th. simpl. apply rnd_eq. rewrite (RQ_of_int h) by lia. reflexivity. }
  assert (Xw : (0 <= inject_Z w * scale)%Q) by nra.
  assert (Xh : (0 <= inject_Z h * scale)%Q) by nra.
  destruct (rnd_bounds _ Xw) as [Lw Uw]. destruct (rnd_bounds _ Xh) as [Lh Uh].
  rewrite <- Etw in Lw, Uw. rewrite <- Eth in Lh, Uh.
  assert (Ntw : (0 <= tw)%Q) by nra.
  assert (Nth : (0 <= th)%Q) by nra.
  destruct (Qtrunc_bounds tw Ntw) as (Zw & Tw1 & Tw2).
  destruct (Qtrunc_bounds th Nth) as (Zh & Th1 & Th2).
  assert (EW : (inject_Z new_w * eps <= inject_Z B * eps)%Q)
    by (apply Qmult_le_compat_r; lra).
  assert (EH : (inject_Z new_h * eps <= inject_Z B * eps)%Q)
    by (apply Qmult_le_compat_r; lra).
  exists scale, (Qtrunc tw), (Qtrunc th).
  split; [reflexivity|]. split; [exact Ps|]. split; [exact Sw|]. split; [exact Sh|].
  assert (Cw : (inject_Z (Qtrunc tw) < inject_Z (new_w + 1))%Q).
  { rewrite inject_Z_plus. change (inject_Z 1) with 1%Q.
    assert (inject_Z w * scale * (1 + eps) <= inject_Z new_w * (1 + eps) * (1 + eps))%Q
      by (apply Qmult_le_compat_r; lra).
    nra. }
  assert (Ch : (inject_Z (Qtrunc th) < inject_Z (new_h + 1))%Q).
  { rewrite inject_Z_plus. change (inject_Z 1) with 1%Q.
    assert (inject_Z h * scale * (1 + eps) <= inject_Z new_h * (1 + eps) * (1 + eps))%Q
      by (apply Qmult_le_compat_r; lra).
    nra. }
  rewrite <- Zlt_Qlt in Cw, Ch.
  split; [lia|]. split; [lia|]. split; split; lra.
Qed.
(** The inverse map on the two ends [off] and [off + n] of the pasted
    region of an axis of source length [d]: the first end goes back to 0,
    the second to [d] up to one canvas pixel ([1 / scale] source pixels)
    and the rounding of the arithmetic. *)
Lemma RQ_to_source_ends (off n d : Z) (scale : Q) :
  0 <= off -> 0 <= n -> off + n < B -> 1 <= d < B -> (0 < scale)%Q ->
  (inject_Z d * scale * (1 - eps) - 1 < inject_Z n
     <= inject_Z d * scale * (1 + eps))%Q ->
  exists x0 x1,
    @to_source Q (RQ rnd) (@of_int Q (RQ rnd) off) off scale = Ok x0 /\
    (x0 == 0)%Q /\
    @to_source Q (RQ rnd) (@of_int Q (RQ rnd) (off + n)) off scale = Ok x1 /\
    (inject_Z d - / scale - inject_Z d * (4 * eps) < x1
       <= inject_Z d + inject_Z d * (4 * eps))%Q.
Proof.
  intros Hoff Hn HB Hd Ps [Ln Un].
  unfold to_source, float_truediv. cbn [fis_zero RQ].
  replace (Qeq_bool scale 0) with false
    by (symmetry; apply not_true_is_false; intros C; apply Qeq_bool_iff in C; lra).
  do 2 eexists. split; [reflexivity|]. split; [|split; [reflexivity|]].
  - cbn [fdiv fsub RQ].
    assert (E0 : (rnd (@of_int Q (RQ rnd) off - @of_int Q (RQ rnd) off) == 0)%Q).
    { rewrite (rnd_eq _ (inject_Z 0)) by (simpl; ring). apply rnd_int. lia. }
    rewrite (rnd_eq _ (inject_Z 0)).
    + apply rnd_int. lia.
    + rewrite E0. simpl. field. lra.
  - cbn [fdiv fsub RQ].
    assert (En : (rnd (@of_int Q (RQ rnd) (off + n) - @of_int Q (RQ rnd) off)
                  == inject_Z n)%Q).
    { rewrite (rnd_eq _ (inject_Z n)).
      - apply rnd_int. lia.
      - rewrite !RQ_of_int by lia. rewrite inject_Z_plus. ring. }
    set (x := (inject_Z n / scale)%Q).
    assert (Ex : (rnd (rnd (@of_int Q (RQ rnd) (off + n) - @of_int Q (RQ rnd) off) / scale)
                  == rnd x)%Q) by (apply rnd_eq; rewrite En; reflexivity).
    rewrite Ex.
    assert (X : (x * scale == inject_Z n)%Q) by (unfold x; field; lra).
    assert (Pn : (0 <= inject_Z n)%Q) by (change 0%Q with (inject_Z 0); rewrite <- Zle_Qle; lia).
    assert (Pd : (1 <= inject_Z d)%Q) by (change 1%Q with (inject_Z 1); rewrite <- Zle_Qle; lia).
    assert (Px : (0 <= x)%Q) by (apply Qle_shift_div_l; [exact Ps | lra]).
    destruct (rnd_bounds x Px) as [L U].
    pose proof (eps_lt_1 ltac:(lia)) as E8. destruct eps_small as [E0 _].
    assert (I : (/ scale * scale == 1)%Q) by (field; lra).
    assert (Pi : (0 < / scale)%Q) by (apply Qinv_lt_0_compat; exact Ps).
    assert (Xu : (x <= inject_Z d * (1 + eps))%Q).
    { apply Qmult_lt_0_le_reg_r with scale; [exact Ps|].
      rewrite X. lra. }
    assert (Xl : (inject_Z d * (1 - eps) - / scale < x)%Q).
    { apply Qmult_lt_r with scale; [exact Ps|].
      rewrite X.
      setoid_replace ((inject_Z d * (1 - eps) - / scale) * scale)%Q
        with (inject_Z d * scale * (1 - eps) - / scale * scale)%Q by ring.
      rewrite I. exact Ln. }
    split; nra.
Qed.
End RoundedLetterbox.

(** Binary64 rounding fits the hypotheses above for ints below [2^50]. *)
Lemma rnd53_bounds (q : Q) :
  (0 <= q)%Q -> (q * (1 - pow2 (-53)) <= rnd_to 53 q <= q * (1 + pow2 (-53)))%Q.
Proof.
  intros Hq. apply Qle_lteq in Hq. destruct Hq as [Hq|Hq].
  - apply (rnd_to_bounds 53 q Hq).
  - rewrite (rnd_to_0 53 q) by (symmetry; exact Hq). rewrite <- Hq. split; lra.
Qed.

Lemma rnd53_eq (x y : Q) : (x == y)%Q -> (rnd_to 53 x == rnd_to 53 y)%Q.
Proof. intros E. rewrite (rnd_to_eq 53 x y E). reflexivity. Qed.

Lemma rnd53_int (n : Z) : 0 <= n < 2 ^ 50 -> (rnd_to 53 (inject_Z n) == inject_Z n)%Q.
Proof. intros H. apply rnd_to_int. lia. Qed.

Lemma rnd53_eps_small :
  (0 <= pow2 (-53))%Q /\ (inject_Z (2 ^ 50) * (4 * pow2 (-53)) <= 1)%Q.
Proof. split; vm_compute; discriminate. Qed.


Lemma slice_range_inside (n start len : Z) :
  0 <= start -> 0 <= len -> start + len <= n ->
  slice_range n start (start + len) = (start, len).
Proof.
  intros H0 H1 H2. unfold slice_range, slice_bound.
  replace (start <? 0) with false by (symmetry; apply Z.ltb_ge; lia).
  replace (start + len <? 0) with false by (symmetry; apply Z.ltb_ge; lia).
  f_equal; lia.
Qed.

(** A slice assignment inside the canvas, from an array of the size of
    the slice. *)
Lemma paste_inside {A : Type} (canvas resized : array A) (top left nh nw : Z) :
  0 <= top -> 0 <= nh -> top + nh <= Z.of_nat (height canvas) ->
  0 <= left -> 0 <= nw -> left + nw <= Z.of_nat (width canvas) ->
  Z.of_nat (height resized) = nh -> Z.of_nat (width resized) = nw ->
  exists out,
    paste canvas top (top + nh) left (left + nw) resized = Ok out /\
    height out = height canvas /\ width out = width canvas /\
    (forall r c, top <= r < top + nh -> left <= c < left + nw ->
       px out r c = px resized (r - top) (c - left)) /\
    (forall r c, ~ (top <= r < top + nh /\ left <= c < left + nw) ->
       px out r c = px canvas r c).
Proof.
  intros Ht Hnh Hth Hl Hnw Hlw Eh Ew. unfold paste.
  rewrite (slice_range_inside _ top nh Ht Hnh Hth).
  rewrite (slice_range_inside _ left nw Hl Hnw Hlw).
  rewrite Eh, Ew. unfold broadcastable. rewrite !Z.eqb_refl. simpl.
  eexists. split; [reflexivity|]. simpl. repeat split.
  - intros r c Hr Hc.
    replace ((top <=? r) && (r <? top + nh) && (left <=? c) && (c <? left + nw)) with true.
    + reflexivity.
    + symmetry. rewrite !andb_true_iff. rewrite !Z.leb_le, !Z.ltb_lt. lia.
  - intros r c Hn.
    replace ((top <=? r) && (r <? top + nh) && (left <=? c) && (c <? left + nw)) with false.
    + reflexivity.
    + symmetry. apply not_true_is_false. intros Hc. apply Hn.
      rewrite !andb_true_iff in Hc. rewrite !Z.leb_le, !Z.ltb_lt in Hc. lia.
Qed.

Lemma rnd53_letterbox_dims (img : image) (new_w new_h : Z) :
  let w := Z.of_nat (width img) in
  let h := Z.of_nat (height img) in
  1 <= w < 2 ^ 50 -> 1 <= h < 2 ^ 50 -> 1 <= new_w < 2 ^ 50 -> 1 <= new_h < 2 ^ 50 ->
  exists scale nw nh,
    @letterbox_dims Q R64 img new_w new_h = Ok (scale, nw, nh) /\
    (0 < scale)%Q /\
    (scale * inject_Z w <= inject_Z new_w * (1 + pow2 (-53)))%Q /\
    (scale * inject_Z h <= inject_Z new_h * (1 + pow2 (-53)))%Q /\
    0 <= nw <= new_w /\ 0 <= nh <= new_h /\
    (inject_Z w * scale * (1 - pow2 (-53)) - 1 < inject_Z nw
       <= inject_Z w * scale * (1 + pow2 (-53)))%Q /\
    (inject_Z h * scale * (1 - pow2 (-53)) - 1 < inject_Z nh
       <= inject_Z h * scale * (1 + pow2 (-53)))%Q.
Proof.
  exact (RQ_letterbox_dims (rnd_to 53) (pow2 (-53)) (2 ^ 50)
           rnd53_eq rnd53_int rnd53_bounds rnd53_eps_small img new_w new_h).
Qed.

(** The bit-exact binary64 model and the rounded rationals compute the
    same scale and the same resized size on the sizes compared. *)
Lemma letterbox_dims_models_agree :
  forallb (fun hw => forallb (dims_agree hw) small_targets) small_sizes = true /\
  forallb (fun hw => forallb (dims_agree hw) detector_targets) camera_sizes = true.
Proof. split; vm_compute; reflexivity. Qed.

(** ** The letterbox transform on positive dimensions *)


(** C10: on a source image and a target with positive dimensions (below
    [2^50], as any array that exists has), the resized size fits the
    canvas, the offsets are not negative, the pasted region ends inside the
    canvas, and the two slices of the assignment are exactly the rows
    [top .. top + nh) and the columns [left .. left + nw): nothing is
    clipped or wrapped around. *)
Theorem letterbox_paste_in_bounds (img : image) (new_w new_h : Z) :
  1 <= Z.of_nat (width img) < 2 ^ 50 -> 1 <= Z.of_nat (height img) < 2 ^ 50 ->
  1 <= new_w < 2 ^ 50 -> 1 <= new_h < 2 ^ 50 ->
  exists scale nw nh,
    @letterbox_dims Q R64 img new_w new_h = Ok (scale, nw, nh) /\
    let top := (new_h - nh) / 2 in
    let left := (new_w - nw) / 2 in
    0 <= nw <= new_w /\ 0 <= nh <= new_h /\
    0 <= left /\ 0 <= top /\
    left + nw <= new_w /\ top + nh <= new_h /\
    slice_range new_h top (top + nh) = (top, nh) /\
    slice_range new_w left (left + nw) = (left, nw).
Proof.
  intros Hw Hh HW HH.
  destruct (rnd53_letterbox_dims img new_w new_h Hw Hh HW HH)
    as (scale & nw & nh & E & _ & _ & _ & Bw & Bh & _ & _).
  exists scale, nw, nh. split; [exact E|]. cbv zeta.
  assert (Lw : 0 <= (new_w - nw) / 2) by (apply Z.div_pos; lia).
  assert (Lh : 0 <= (new_h - nh) / 2) by (apply Z.div_pos; lia).
  assert (Uw : 2 * ((new_w - nw) / 2) <= new_w - nw) by (apply Z.mul_div_le; lia).
  assert (Uh : 2 * ((new_h - nh) / 2) <= new_h - nh) by (apply Z.mul_div_le; lia).
  repeat split; try lia.
  - apply slice_range_inside; lia.
  - apply slice_range_inside; lia.
Qed.

Lemma letterbox_paste_in_bounds_witness :
  exists scale nw nh,
    @letterbox_dims Q R64 (Example.frame 360 640) 224 224 = Ok (scale, nw, nh) /\
    let top := (224 - nh) / 2 in
    let left := (224 - nw) / 2 in
    0 <= nw <= 224 /\ 0 <= nh <= 224 /\
    0 <= left /\ 0 <= top /\
    left + nw <= 224 /\ top + nh <= 224 /\
    slice_range 224 top (top + nh) = (top, nh) /\
    slice_range 224 left (left + nw) = (left, nw).
Proof.
  apply (letterbox_paste_in_bounds (Example.frame 360 640) 224 224);
    simpl; lia.
Defined.


Lemma letterbox_dims_inv (img : image) (new_w new_h : Z) (scale : Q) (nw nh : Z) :
  @letterbox_dims Q R64 img new_w new_h = Ok (scale, nw, nh) ->
  scale = @py_min Q R64
            (@fdiv Q R64 (@of_int Q R64 new_w) (@of_int Q R64 (Z.of_nat (width img))))
            (@fdiv Q R64 (@of_int Q R64 new_h) (@of_int Q R64 (Z.of_nat (height img)))) /\
  @to_int Q R64 (@fmul Q R64 (@of_int Q R64 (Z.of_nat (width img))) scale) = Ok nw /\
  @to_int Q R64 (@fmul Q R64 (@of_int Q R64 (Z.of_nat (height img))) scale) = Ok nh.
Proof.
  unfold letterbox_dims, np_truediv. intros H. cbv zeta in H.
  cbn [to_int R64 RQ] in H. cbn [bind] in H.
  inversion H; subst. auto.
Qed.

(** C4, as the code has it: on positive dimensions below [2^50], when the
    library resize returns an image of the size asked for, the transform
    returns the scale [min(new_w / w, new_h / h)], a canvas of [new_h] rows
    and [new_w] columns, and the offsets [left = (new_w - nw) // 2] and
    [top = (new_h - nh) // 2], where the resized size is the truncation
    [nw = int(w * scale)], [nh = int(h * scale)]; the canvas holds the
    resized image at [top, left], centred up to one pixel, and zeros
    everywhere else. *)
Theorem letterbox_result (cv_resize pil_resize : image -> Z -> Z -> res image)
    (img resized : image) (new_w new_h : Z) (scale : Q) (nw nh : Z) :
  1 <= Z.of_nat (width img) < 2 ^ 50 -> 1 <= Z.of_nat (height img) < 2 ^ 50 ->
  1 <= new_w < 2 ^ 50 -> 1 <= new_h < 2 ^ 50 ->
  @letterbox_dims Q R64 img new_w new_h = Ok (scale, nw, nh) ->
  resize cv_resize pil_resize img nw nh = Ok resized ->
  Z.of_nat (height resized) = nh -> Z.of_nat (width resized) = nw ->
  let left := (new_w - nw) / 2 in
  let top := (new_h - nh) / 2 in
  exists canvas,
    @letterbox Q R64 cv_resize pil_resize img new_w new_h
      = Ok (canvas, scale, left, top) /\
    scale = @py_min Q R64
              (@fdiv Q R64 (@of_int Q R64 new_w) (@of_int Q R64 (Z.of_nat (width img))))
              (@fdiv Q R64 (@of_int Q R64 new_h) (@of_int Q R64 (Z.of_nat (height img)))) /\
    @to_int Q R64 (@fmul Q R64 (@of_int Q R64 (Z.of_nat (width img))) scale) = Ok nw /\
    @to_int Q R64 (@fmul Q R64 (@of_int Q R64 (Z.of_nat (height img))) scale) = Ok nh /\
    Z.of_nat (height canvas) = new_h /\ Z.of_nat (width canvas) = new_w /\
    0 <= new_w - nw - 2 * left <= 1 /\ 0 <= new_h - nh - 2 * top <= 1 /\
    (forall r c, top <= r < top + nh -> left <= c < left + nw ->
       px canvas r c = px resized (r - top) (c - left)) /\
    (forall r c, ~ (top <= r < top + nh /\ left <= c < left + nw) ->
       px canvas r c = (0, 0, 0)).
Proof.
  intros Hw Hh HW HH E Er Rh Rw left top.
  destruct (rnd53_letterbox_dims img new_w new_h Hw Hh HW HH)
    as (scale' & nw' & nh' & E' & _ & _ & _ & Bw & Bh & _ & _).
  rewrite E in E'. inversion E'; subst scale' nw' nh'. clear E'.
  assert (Lw : 0 <= left) by (apply Z.div_pos; lia).
  assert (Lh : 0 <= top) by (apply Z.div_pos; lia).
  assert (Uw : left + nw <= new_w)
    by (pose proof (Z.mul_div_le (new_w - nw) 2 ltac:(lia)); unfold left; lia).
  assert (Uh : top + nh <= new_h)
    by (pose proof (Z.mul_div_le (new_h - nh) 2 ltac:(lia)); unfold top; lia).
  destruct (letterbox_dims_inv _ _ _ _ _ _ E) as (Es & Enw & Enh).
  unfold letterbox. rewrite E. cbn [bind]. rewrite Er. cbn [bind].
  unfold zeros.
  replace ((new_h <? 0) || (new_w <? 0)) with false
    by (symmetry; apply orb_false_iff; split; apply Z.ltb_ge; lia).
  cbn [bind]. fold left top.
  set (zc := {| height := Z.to_nat new_h; width := Z.to_nat new_w;
                px := fun _ _ : Z => (0, 0, 0) |}).
  destruct (@paste_inside pixel zc resized top left nh nw) as (out & Ep & Eh & Ew & Pin & Pout);
    try assumption; try (unfold zc; simpl; lia).
  rewrite Ep. cbn [bind].
  exists out. split; [reflexivity|]. split; [exact Es|]. split; [exact Enw|].
  split; [exact Enh|].
  split; [rewrite Eh; unfold zc; simpl; lia|]. split; [rewrite Ew; unfold zc; simpl; lia|].
  assert (Mw := Z.div_mod (new_w - nw) 2 ltac:(lia)).
  assert (Mh := Z.div_mod (new_h - nh) 2 ltac:(lia)).
  assert (Rw' := Z.mod_pos_bound (new_w - nw) 2 ltac:(lia)).
  assert (Rh' := Z.mod_pos_bound (new_h - nh) 2 ltac:(lia)).
  fold left in Mw. fold top in Mh.
  split; [lia|]. split; [lia|]. split; [exact Pin|].
  intros r c Hn. rewrite (Pout r c Hn). reflexivity.
Qed.

(** C4, as the specification has it, fails in binary64.  A 640 x 360 frame
    letterboxed into 224 x 224 is resized to 125 rows, the truncation of
    [360 * scale], and not to [round(360 * scale) = 126].  A 16 x 15 frame
    letterboxed into 4 x 4 has the offset [top = 0], not
    [(4 - 15 * scale) / 2 = 0.125], and its last canvas row is padding. *)
Lemma letterbox_truncates :
  @letterbox_dims _ SF64 (Example.frame 360 640) 224 224
    = Ok (S754_finite false 6305039478318694 (-54), 224, 125) /\
  @spec_resized_dim _ SF64 360 (S754_finite false 6305039478318694 (-54)) = Ok 126 /\
  exists canvas,
    @letterbox _ SF64 nn_resize nn_resize (Example.frame 15 16) 4 4
      = Ok (canvas, Example.b64 1 (-2), 0, 0) /\
    @spec_offset _ SF64 4 15 (Example.b64 1 (-2)) = Example.b64 1 (-3) /\
    @spec_resized_dim _ SF64 15 (Example.b64 1 (-2)) = Ok 4 /\
    px canvas 3 0 = (0, 0, 0).
Proof.
  split; [vm_compute; reflexivity|]. split; [vm_compute; reflexivity|].
  eexists. split; [vm_compute; reflexivity|].
  repeat split; vm_compute; reflexivity.
Qed.

Lemma letterbox_result_witness :
  let left := (224 - 224) / 2 in
  let top := (224 - 125) / 2 in
  exists canvas,
    @letterbox Q R64 nn_resize nn_resize (Example.frame 360 640) 224 224
      = Ok (canvas, Example.scale_wide, left, top) /\
    Example.scale_wide = @py_min Q R64
              (@fdiv Q R64 (@of_int Q R64 224)
                 (@of_int Q R64 (Z.of_nat (width (Example.frame 360 640)))))
              (@fdiv Q R64 (@of_int Q R64 224)
                 (@of_int Q R64 (Z.of_nat (height (Example.frame 360 640))))) /\
    @to_int Q R64 (@fmul Q R64 (@of_int Q R64 (Z.of_nat (width (Example.frame 360 640))))
                     Example.scale_wide) = Ok 224 /\
    @to_int Q R64 (@fmul Q R64 (@of_int Q R64 (Z.of_nat (height (Example.frame 360 640))))
                     Example.scale_wide) = Ok 125 /\
    Z.of_nat (height canvas) = 224 /\ Z.of_nat (width canvas) = 224 /\
    0 <= 224 - 224 - 2 * left <= 1 /\ 0 <= 224 - 125 - 2 * top <= 1 /\
    (forall r c, top <= r < top + 125 -> left <= c < left + 224 ->
       px canvas r c = px Example.resized_wide (r - top) (c - left)) /\
    (forall r c, ~ (top <= r < top + 125 /\ left <= c < left + 224) ->
       px canvas r c = (0, 0, 0)).
Proof.
  apply (letterbox_result nn_resize nn_resize (Example.frame 360 640)
           Example.resized_wide 224 224 Example.scale_wide 224 125).
  - simpl; lia.
  - simpl; lia.
  - lia.
  - lia.
  - vm_compute. reflexivity.
  - vm_compute. reflexivity.
  - reflexivity.
  - reflexivity.
Defined.


(** ** The inverse of the letterbox map *)

(** In exact arithmetic [(p - off) / scale] undoes [s * scale + off]. *)
Lemma to_source_exact (s scale : Q) (off : Z) :
  (0 < scale)%Q ->
  exists r,
    @to_source Q (RQ exact) (s * scale + inject_Z off)%Q off scale = Ok r /\
    (r == s)%Q.
Proof.
  intros Ps. unfold to_source, float_truediv. cbn [fis_zero RQ].
  replace (Qeq_bool scale 0) with false
    by (symmetry; apply not_true_is_false; intros C; apply Qeq_bool_iff in C; lra).
  eexists. split; [reflexivity|].
  unfold of_int. cbn [fdiv fsub of_dyadic RQ]. unfold exact.
  rewrite pow2_0. field. lra.
Qed.

Lemma rnd53_to_source_ends (off n d : Z) (scale : Q) :
  0 <= off -> 0 <= n -> off + n < 2 ^ 50 -> 1 <= d < 2 ^ 50 -> (0 < scale)%Q ->
  (inject_Z d * scale * (1 - pow2 (-53)) - 1 < inject_Z n
     <= inject_Z d * scale * (1 + pow2 (-53)))%Q ->
  exists x0 x1,
    @to_source Q R64 (@of_int Q R64 off) off scale = Ok x0 /\
    (x0 == 0)%Q /\
    @to_source Q R64 (@of_int Q R64 (off + n)) off scale = Ok x1 /\
    (inject_Z d - / scale - inject_Z d * pow2 (-51) < x1
       <= inject_Z d + inject_Z d * pow2 (-51))%Q.
Proof.
  intros H1 H2 H3 H4 H5 H6.
  destruct (RQ_to_source_ends (rnd_to 53) (pow2 (-53)) (2 ^ 50)
              rnd53_eq rnd53_int rnd53_bounds rnd53_eps_small
              off n d scale H1 H2 H3 H4 H5 H6) as (x0 & x1 & E0 & Z0 & E1 & B).
  exists x0, x1. split; [exact E0|]. split; [exact Z0|]. split; [exact E1|].
  assert (E : (4 * pow2 (-53) == pow2 (-51))%Q) by reflexivity.
  rewrite <- E. exact B.
Qed.

(** C5: the letterbox map is invertible.  With the scale and the offsets
    the transform computes on positive dimensions (below [2^50]),
    [(p - offset) / scale] undoes [s * scale + offset] on every point, in
    exact arithmetic; and in binary64 it takes the corners of the pasted
    region, [left], [left + nw], [top] and [top + nh], back to the source
    corners: to 0 exactly, and to [w] and [h] up to the one canvas pixel
    that the truncation of the resized size can lose ([1 / scale] source
    pixels) and a relative rounding error of [2^-51]. *)
Theorem letterbox_inverse_corners (img : image) (new_w new_h : Z) :
  1 <= Z.of_nat (width img) < 2 ^ 50 -> 1 <= Z.of_nat (height img) < 2 ^ 50 ->
  1 <= new_w < 2 ^ 50 -> 1 <= new_h < 2 ^ 50 ->
  exists scale nw nh,
    @letterbox_dims Q R64 img new_w new_h = Ok (scale, nw, nh) /\
    let left := (new_w - nw) / 2 in
    let top := (new_h - nh) / 2 in
    let w := inject_Z (Z.of_nat (width img)) in
    let h := inject_Z (Z.of_nat (height img)) in
    (0 < scale)%Q /\
    (forall s : Q, exists r,
       @to_source Q (RQ exact) (s * scale + inject_Z left)%Q left scale = Ok r /\
       (r == s)%Q) /\
    (forall s : Q, exists r,
       @to_source Q (RQ exact) (s * scale + inject_Z top)%Q top scale = Ok r /\
       (r == s)%Q) /\
    (exists x0 x1,
       @to_source Q R64 (@of_int Q R64 left) left scale = Ok x0 /\
       (x0 == 0)%Q /\
       @to_source Q R64 (@of_int Q R64 (left + nw)) left scale = Ok x1 /\
       (w - / scale - w * pow2 (-51) < x1 <= w + w * pow2 (-51))%Q) /\
    (exists y0 y1,
       @to_source Q R64 (@of_int Q R64 top) top scale = Ok y0 /\
       (y0 == 0)%Q /\
       @to_source Q R64 (@of_int Q R64 (top + nh)) top scale = Ok y1 /\
       (h - / scale - h * pow2 (-51) < y1 <= h + h * pow2 (-51))%Q).
Proof.
  intros Hw Hh HW HH.
  destruct (rnd53_letterbox_dims img new_w new_h Hw Hh HW HH)
    as (scale & nw & nh & E & Ps & _ & _ & Bw & Bh & Tw & Th).
  exists scale, nw, nh. split; [exact E|]. cbv zeta.
  assert (Lw : 0 <= (new_w - nw) / 2) by (apply Z.div_pos; lia).
  assert (Lh : 0 <= (new_h - nh) / 2) by (apply Z.div_pos; lia).
  assert (Uw : 2 * ((new_w - nw) / 2) <= new_w - nw) by (apply Z.mul_div_le; lia).
  assert (Uh : 2 * ((new_h - nh) / 2) <= new_h - nh) by (apply Z.mul_div_le; lia).
  split; [exact Ps|].
  split; [intros s; apply to_source_exact; exact Ps|].
  split; [intros s; apply to_source_exact; exact Ps|].
  split.
  - apply rnd53_to_source_ends; try lia; assumption.
  - apply rnd53_to_source_ends; try lia; assumption.
Qed.

Lemma letterbox_inverse_corners_witness :
  exists scale nw nh,
    @letterbox_dims Q R64 (Example.frame 360 640) 224 224 = Ok (scale, nw, nh) /\
    let left := (224 - nw) / 2 in
    let top := (224 - nh) / 2 in
    let w := inject_Z (Z.of_nat (width (Example.frame 360 640))) in
    let h := inject_Z (Z.of_nat (height (Example.frame 360 640))) in
    (0 < scale)%Q /\
    (forall s : Q, exists r,
       @to_source Q (RQ exact) (s * scale + inject_Z left)%Q left scale = Ok r /\
       (r == s)%Q) /\
    (forall s : Q, exists r,
       @to_source Q (RQ exact) (s * scale + inject_Z top)%Q top scale = Ok r /\
       (r == s)%Q) /\
    (exists x0 x1,
       @to_source Q R64 (@of_int Q R64 left) left scale = Ok x0 /\
       (x0 == 0)%Q /\
       @to_source Q R64 (@of_int Q R64 (left + nw)) left scale = Ok x1 /\
       (w - / scale - w * pow2 (-51) < x1 <= w + w * pow2 (-51))%Q) /\
    (exists y0 y1,
       @to_source Q R64 (@of_int Q R64 top) top scale = Ok y0 /\
       (y0 == 0)%Q /\
       @to_source Q R64 (@of_int Q R64 (top + nh)) top scale = Ok y1 /\
       (h - / scale - h * pow2 (-51) < y1 <= h + h * pow2 (-51))%Q).
Proof.
  apply (letterbox_inverse_corners (Example.frame 360 640) 224 224);
    simpl; lia.
Defined.


(** ** Tensor quantizer *)

Lemma byte_values_spec (x : Z) : 0 <= x <= 255 -> In x byte_values.
Proof.
  intros H. unfold byte_values. apply in_map_iff. exists (Z.to_nat x).
  split; [lia|]. apply in_seq. lia.
Qed.

(** A property checked on the 256 bytes holds of every byte. *)
Lemma forall_bytes (P : Z -> bool) :
  forallb P byte_values = true -> forall x, 0 <= x <= 255 -> P x = true.
Proof.
  intros H x Hx. rewrite forallb_forall in H. apply H, byte_values_spec, Hx.
Qed.

Lemma wrap_u8_range (n : Z) : 0 <= wrap_u8 n <= 255.
Proof. unfold wrap_u8. pose proof (Z.mod_pos_bound n 256). lia. Qed.

Lemma wrap_i8_range (n : Z) : -128 <= wrap_i8 n <= 127.
Proof. unfold wrap_i8. pose proof (Z.mod_pos_bound (n + 128) 256). lia. Qed.

Lemma wrap_u8_id (n : Z) : 0 <= n <= 255 -> wrap_u8 n = n.
Proof. intros H. unfold wrap_u8. apply Z.mod_small. lia. Qed.

Lemma wrap_i8_id (n : Z) : -128 <= n <= 127 -> wrap_i8 n = n.
Proof. intros H. unfold wrap_i8. rewrite Z.mod_small; lia. Qed.

Lemma Qtrunc_inject (k : Z) : Qtrunc (inject_Z k) = k.
Proof. unfold Qtrunc. simpl. apply Z.quot_1_r. Qed.

Lemma Qltb_inject (a b : Z) : Qltb (inject_Z a) (inject_Z b) = (a <? b).
Proof.
  unfold Qltb, Qcompare, Z.ltb. simpl. rewrite !Z.mul_1_r. reflexivity.
Qed.

Lemma Qltb_lt (a b : Q) : Qltb a b = true <-> (a < b)%Q.
Proof.
  unfold Qltb. rewrite Qlt_alt. destruct (Qcompare a b); split; congruence.
Qed.

(** In the rounded rationals, clipping an integer value to [[lo, hi]] and
    truncating it is the integer clamp. *)
Lemma R32_clip_int (lo hi k : Z) :
  @of_int Q R32 lo = inject_Z lo -> @of_int Q R32 hi = inject_Z hi -> lo <= hi ->
  Qtrunc (@fclip Q R32 (@of_int Q R32 lo) (@of_int Q R32 hi) (inject_Z k))
  = Z.max lo (Z.min hi k).
Proof.
  intros -> -> Hle. unfold fclip. cbn [flt R32 RQ]. rewrite !Qltb_inject.
  destruct (k <? lo) eqn:C1; [apply Z.ltb_lt in C1; rewrite Qtrunc_inject; lia|].
  apply Z.ltb_ge in C1.
  destruct (hi <? k) eqn:C2; [apply Z.ltb_lt in C2 | apply Z.ltb_ge in C2];
    rewrite Qtrunc_inject; lia.
Qed.

Lemma R32_positive (s : Q) : (0 < s)%Q -> @flt Q R32 (@of_int Q R32 0) s = true.
Proof. intros H. cbn [flt R32 RQ]. apply Qltb_lt. exact H. Qed.

Lemma R32_quantize_u8 (in_scale : Q) (in_zero x : Z) :
  (0 < in_scale)%Q ->
  @quantize_elem Q R32 UInt8 in_scale in_zero x
  = QU8 (Z.max 0 (Z.min 255 (Qrint
      (@fadd Q R32 (@fdiv Q R32 (@fdiv Q R32 (@of_int Q R32 x) (@of_int Q R32 255)) in_scale)
         (@of_int Q R32 in_zero))))).
Proof.
  intros Hs. unfold quantize_elem. rewrite (R32_positive _ Hs).
  unfold astype_u8. cbn [to_int frint R32 RQ].
  rewrite R32_clip_int by (try reflexivity; lia).
  rewrite wrap_u8_id by lia. reflexivity.
Qed.

Lemma R32_quantize_i8 (in_scale : Q) (in_zero x : Z) :
  (0 < in_scale)%Q ->
  @quantize_elem Q R32 Int8 in_scale in_zero x
  = QI8 (Z.max (-128) (Z.min 127 (Qrint
      (@fadd Q R32 (@fdiv Q R32 (@fdiv Q R32 (@of_int Q R32 x) (@of_int Q R32 255)) in_scale)
         (@of_int Q R32 in_zero))))).
Proof.
  intros Hs. unfold quantize_elem. rewrite (R32_positive _ Hs).
  unfold astype_i8. cbn [to_int frint R32 RQ].
  rewrite R32_clip_int by (try reflexivity; lia).
  rewrite wrap_i8_id by lia. reflexivity.
Qed.

(** The quantized tensor has the shape of the canvas, and each of its
    samples is the quantized sample of the canvas. *)
Lemma quantize_input_px {F : Type} {PF : PyFloat F}
    (x : image) (in_dtype : dtype) (in_scale : F) (in_zero : Z) (r c : Z) :
  height (quantize_input x in_dtype in_scale in_zero) = height x /\
  width (quantize_input x in_dtype in_scale in_zero) = width x /\
  px (quantize_input x in_dtype in_scale in_zero) r c
  = (quantize_elem in_dtype in_scale in_zero (fst (fst (px x r c))),
     quantize_elem in_dtype in_scale in_zero (snd (fst (px x r c))),
     quantize_elem in_dtype in_scale in_zero (snd (px x r c))).
Proof.
  unfold quantize_input. simpl. destruct (px x r c) as [[c0 c1] c2]. auto.
Qed.

(** C6: the quantizer keeps to the range of the declared dtype on 8-bit
    input.  The float32 path is the binary32 quotient by 255 and lies in
    [[0, 1]] (checked on the 256 bytes, bit-exact).  The uint8 path with
    [scale > 0] is the byte divided by 255, divided by the scale, plus the
    zero-point, rounded and clipped to [[0, 255]] (in rounded arithmetic);
    with no scale it returns the byte unchanged.  Whatever the arithmetic,
    the uint8 path yields values in [[0, 255]] and the int8 path values in
    [[-128, 127]]. *)
Theorem quantize_dtype_contract :
  (forall (in_scale : spec_float) (in_zero x : Z), 0 <= x <= 255 ->
     exists v,
       @quantize_elem _ SF32 Float32 in_scale in_zero x = QF32 v /\
       v = @fdiv _ SF32 (@of_int _ SF32 x) (@of_int _ SF32 255) /\
       SF_in_unit v = true) /\
  (forall (in_scale : Q) (in_zero x : Z), (0 < in_scale)%Q ->
     exists n,
       @quantize_elem Q R32 UInt8 in_scale in_zero x = QU8 n /\
       n = Z.max 0 (Z.min 255 (Qrint
             (@fadd Q R32
                (@fdiv Q R32 (@fdiv Q R32 (@of_int Q R32 x) (@of_int Q R32 255)) in_scale)
                (@of_int Q R32 in_zero)))) /\
       0 <= n <= 255) /\
  (forall (F : Type) (PF : PyFloat F) (in_scale : F) (in_zero x : Z),
     flt (of_int 0) in_scale = false -> 0 <= x <= 255 ->
     quantize_elem UInt8 in_scale in_zero x = QU8 x) /\
  (forall (F : Type) (PF : PyFloat F) (in_scale : F) (in_zero x : Z),
     exists n, quantize_elem UInt8 in_scale in_zero x = QU8 n /\ 0 <= n <= 255) /\
  (forall (F : Type) (PF : PyFloat F) (in_scale : F) (in_zero x : Z),
     exists n, quantize_elem Int8 in_scale in_zero x = QI8 n /\ -128 <= n <= 127).
Proof.
  split; [|split; [|split; [|split]]].
  - intros in_scale in_zero x Hx. eexists. split; [reflexivity|]. split; [reflexivity|].
    apply (forall_bytes
             (fun x => SF_in_unit (@fdiv _ SF32 (@of_int _ SF32 x) (@of_int _ SF32 255))));
      [vm_compute; reflexivity | exact Hx].
  - intros in_scale in_zero x Hs. eexists.
    split; [apply R32_quantize_u8; exact Hs|]. split; [reflexivity|]. lia.
  - intros F PF in_scale in_zero x Hs Hx. unfold quantize_elem. rewrite Hs.
    rewrite wrap_u8_id by exact Hx. reflexivity.
  - intros F PF in_scale in_zero x. unfold quantize_elem, astype_u8.
    destruct (flt (of_int 0) in_scale).
    + destruct (to_int _); eexists; (split; [reflexivity|]);
        [apply wrap_u8_range | lia].
    + eexists. split; [reflexivity|]. apply wrap_u8_range.
  - intros F PF in_scale in_zero x. unfold quantize_elem, astype_i8.
    destruct (flt (of_int 0) in_scale).
    + destruct (to_int _); eexists; (split; [reflexivity|]);
        [apply wrap_i8_range | lia].
    + destruct (to_int _); eexists; (split; [reflexivity|]);
        [apply wrap_i8_range | lia].
Qed.

(** The int8 fallback of the code on one byte, in binary32. *)
Lemma SF32_int8_fallback (in_scale : spec_float) (in_zero x : Z) :
  @flt _ SF32 (@of_int _ SF32 0) in_scale = false -> 0 <= x <= 255 ->
  @quantize_elem _ SF32 Int8 in_scale in_zero x = QI8 (int8_fallback_spec x).
Proof.
  intros Hs Hx. unfold quantize_elem. rewrite Hs. f_equal.
  apply Z.eqb_eq.
  apply (forall_bytes (fun x =>
     @astype_i8 _ SF32
       (@fclip _ SF32 (@of_int _ SF32 (-128)) (@of_int _ SF32 127)
          (@frint _ SF32
             (@fdiv _ SF32
                (@fclip _ SF32 (@of_int _ SF32 (-1)) (@of_int _ SF32 1)
                   (@fdiv _ SF32
                      (@fsub _ SF32 (@of_int _ SF32 x) (@of_dyadic _ SF32 255 (-1)))
                      (@of_dyadic _ SF32 255 (-1))))
                (@of_dyadic _ SF32 1 (-7)))))
     =? int8_fallback_spec x));
    [vm_compute; reflexivity | exact Hx].
Qed.

(** C7: the int8 path.  With [scale > 0] it is the affine transform, the
    byte divided by 255, divided by the scale, plus the zero-point, rounded
    and clipped to [[-128, 127]] (in rounded arithmetic).  Without a scale it
    is the fixed fallback: on every byte the binary32 computation of the
    code equals the specification's formula with centre 127.5 and scale
    0.0078125 evaluated exactly, and these are the constants of the code. *)
Theorem quantize_int8_paths :
  (forall (in_scale : Q) (in_zero x : Z), (0 < in_scale)%Q ->
     @quantize_elem Q R32 Int8 in_scale in_zero x
     = QI8 (Z.max (-128) (Z.min 127 (Qrint
         (@fadd Q R32
            (@fdiv Q R32 (@fdiv Q R32 (@of_int Q R32 x) (@of_int Q R32 255)) in_scale)
            (@of_int Q R32 in_zero)))))) /\
  (forall (in_scale : spec_float) (in_zero x : Z),
     @flt _ SF32 (@of_int _ SF32 0) in_scale = false -> 0 <= x <= 255 ->
     @quantize_elem _ SF32 Int8 in_scale in_zero x = QI8 (int8_fallback_spec x)) /\
  SF2Q (@of_dyadic _ SF32 255 (-1)) = Some (255 # 2)%Q /\
  SF2Q (@of_dyadic _ SF32 1 (-7)) = Some (1 # 128)%Q /\
  map int8_fallback_spec [0; 1; 127; 128; 254; 255] = [-128; -127; -1; 1; 127; 127].
Proof.
  split; [exact R32_quantize_i8|]. split; [exact SF32_int8_fallback|].
  repeat split; vm_compute; reflexivity.
Qed.

(** * Further properties of [model.py] *)

(** ** Label resolution *)

Lemma str_of_int_inj (c1 c2 : Z) : str_of_int c1 = str_of_int c2 -> c1 = c2.
Proof.
  unfold str_of_int. intros E.
  assert (N : forall z, Z.to_int z <> Decimal.Pos Decimal.Nil /\
                        Z.to_int z <> Decimal.Neg Decimal.Nil).
  { intros [|p|p]; simpl; split; try discriminate;
      intros H; inversion H as [H']; exact (DecimalPos.Unsigned.to_uint_nonnil p H'). }
  pose proof (NilZero.isi (Z.to_int c1) (proj1 (N c1)) (proj2 (N c1))) as R1.
  pose proof (NilZero.isi (Z.to_int c2) (proj1 (N c2)) (proj2 (N c2))) as R2.
  rewrite E in R1. rewrite R1 in R2. inversion R2 as [R].
  apply DecimalZ.to_int_inj. exact R.
Qed.

(** X1: with no label table every class index gets its own placeholder:
    different indices never share a name. *)
Theorem placeholder_injective (c1 c2 : Z) :
  resolve_label [] c1 = resolve_label [] c2 -> c1 = c2.
Proof.
  unfold resolve_label. simpl.
  replace ((0 <=? c1) && (c1 <? 0)) with false by (symmetry; apply andb_false_iff; lia).
  replace ((0 <=? c2) && (c2 <? 0)) with false by (symmetry; apply andb_false_iff; lia).
  replace ((1 <=? c1) && (c1 <=? 0)) with false by (symmetry; apply andb_false_iff; lia).
  replace ((1 <=? c2) && (c2 <=? 0)) with false by (symmetry; apply andb_false_iff; lia).
  intros E. inversion E as [E']. apply str_of_int_inj. exact E'.
Qed.

Lemma placeholder_injective_witness : 7 = 7.
Proof. apply (placeholder_injective 7 7). reflexivity. Defined.

(** X2: the 1-based entry [labels[c-1]] is used for one index only,
    [c = len(labels)], where it is the last label; every index
    [1 <= c < len(labels)] gets the 0-based entry [labels[c]], so a detector
    that numbers its classes from 1 has all but its last class named by the
    next label. *)
Theorem one_based_only_at_end (labels : list string) (c : Z) :
  let n := Z.of_nat (List.length labels) in
  (1 <= c < n ->
     nth_error labels (Z.to_nat c) = Some (resolve_label labels c)) /\
  (1 <= n -> resolve_label labels n = last labels EmptyString) /\
  (c < 0 \/ n < c -> resolve_label labels c = ("id:" ++ str_of_int c)%string).
Proof.
  cbv zeta. unfold resolve_label. split; [|split].
  - intros Hc.
    replace ((0 <=? c) && (c <? Z.of_nat (List.length labels))) with true
      by (symmetry; apply andb_true_iff; lia).
    apply nth_error_nth'. lia.
  - intros Hn.
    replace ((0 <=? Z.of_nat (List.length labels)) &&
             (Z.of_nat (List.length labels) <? Z.of_nat (List.length labels)))
      with false by (symmetry; apply andb_false_iff; lia).
    replace ((1 <=? Z.of_nat (List.length labels)) &&
             (Z.of_nat (List.length labels) <=? Z.of_nat (List.length labels)))
      with true by (symmetry; apply andb_true_iff; lia).
    replace (Z.to_nat (Z.of_nat (List.length labels) - 1))
      with (List.length labels - 1)%nat by lia.
    destruct labels as [|l0 ls] using rev_ind; [simpl in Hn; lia|].
    rewrite last_last, length_app. simpl.
    replace (List.length ls + 1 - 1)%nat with (List.length ls) by lia.
    apply nth_middle.
  - intros Hc.
    replace ((0 <=? c) && (c <? Z.of_nat (List.length labels))) with false
      by (symmetry; apply andb_false_iff; lia).
    replace ((1 <=? c) && (c <=? Z.of_nat (List.length labels))) with false
      by (symmetry; apply andb_false_iff; lia).
    reflexivity.
Qed.

(** ** The post-processing loop and [count] *)

Lemma for_each_app {I S : Type} (body : I -> S -> res S) (l1 l2 : list I) (s : S) :
  for_each body (l1 ++ l2) s = (s' <- for_each body l1 s ;; for_each body l2 s').
Proof.
  revert s. induction l1 as [|i l1 IH]; intros s; simpl; [reflexivity|].
  destruct (body i s) as [s'|e]; simpl; [apply IH | reflexivity].
Qed.

Section PostProcessCount.
Context {F : Type} {PF : PyFloat F}.
Variables (in_w in_h : Z) (labels : list string) (score_thresh : F).
Variables (raw : raw_output F) (scale : F) (left top : Z) (w h : Z).

(** X3: the loop runs [count] times whatever the length of the arrays: when
    [count] is larger than the number of scores and the iterations before
    the end of the array return, the post-processor raises [IndexError]; a
    [count] of zero or less gives no detection at all. *)
Theorem post_process_trusts_count (n : Z) :
  to_int (count raw) = Ok n ->
  (forall i, (i < List.length (scores raw))%nat ->
     iteration_defined in_w in_h score_thresh raw scale left top w h i) ->
  (Z.of_nat (List.length (scores raw)) < n ->
     post_process in_w in_h labels score_thresh raw scale left top w h
     = Raise IndexError) /\
  (n <= 0 ->
     post_process in_w in_h labels score_thresh raw scale left top w h = Ok []).
Proof.
  intros Hn Hdef. unfold post_process. rewrite Hn. cbn [bind]. unfold py_range.
  split.
  - intros Hlt.
    remember (List.length (scores raw)) as k eqn:Ek.
    replace (Z.to_nat n) with (k + (Z.to_nat n - k))%nat by lia.
    rewrite seq_app, for_each_app.
    destruct (for_each_loop_body_defined in_w in_h labels score_thresh raw scale
                left top w h k 0%nat []) as (dets & E).
    { intros i Hi. apply Hdef. lia. }
    rewrite E. cbn [bind].
    destruct (Z.to_nat n - k)%nat as [|m] eqn:Em; [lia|].
    cbn [seq for_each Nat.add]. unfold loop_body at 1. unfold index.
    assert (Enone : nth_error (scores raw) k = None)
      by (apply nth_error_None; lia).
    rewrite Enone. reflexivity.
  - intros Hle. replace (Z.to_nat n) with 0%nat by lia. reflexivity.
Qed.
End PostProcessCount.

Lemma post_process_trusts_count_witness :
  (Z.of_nat (List.length (scores Example.raw)) < 5 ->
     @post_process _ SF64 320 320 Example.labels Example.score_thresh
       {| boxes := boxes Example.raw; classes := classes Example.raw;
          scores := scores Example.raw; count := Example.b64 5 0 |}
       Example.scale Example.left Example.top 640 480 = Raise IndexError) /\
  (5 <= 0 ->
     @post_process _ SF64 320 320 Example.labels Example.score_thresh
       {| boxes := boxes Example.raw; classes := classes Example.raw;
          scores := scores Example.raw; count := Example.b64 5 0 |}
       Example.scale Example.left Example.top 640 480 = Ok []).
Proof.
  apply (@post_process_trusts_count _ SF64 320 320 Example.labels
           Example.score_thresh
           {| boxes := boxes Example.raw; classes := classes Example.raw;
              scores := scores Example.raw; count := Example.b64 5 0 |}
           Example.scale Example.left Example.top 640 480 5).
  - vm_compute. reflexivity.
  - intros i Hi.
    destruct i as [|[|[|[|i]]]]; [ | | | | simpl in Hi; lia ];
      eexists; (split; [reflexivity|]); intros Hlt;
      try (vm_compute in Hlt; discriminate Hlt);
      do 4 eexists; repeat split; vm_compute; reflexivity.
Defined.

(** ** The inference loop: idle passes and the stop flag *)

Section LoopIdle.
Context {F32 F64 : Type} {P32 : PyFloat F32} {P64 : PyFloat F64}.
Variables cv_resize pil_resize : image -> Z -> Z -> res image.
Variables (in_w in_h : Z) (in_dtype : dtype) (in_scale : F32) (in_zero : Z).
Variables (labels : list string) (score_thresh : F64).

(** X4: passes that find no frame change nothing, and a pass that sees
    [running] false ends the loop with the published state untouched: what
    the interpreter or the frame slot hold afterwards is never looked at. *)
Theorem detection_loop_idle_then_stop
    (idle : list tick) (stop : tick) (rest : list tick) (st : pstate) :
  Forall (fun tk : @tick F32 F64 => tk_running tk = true /\ tk_frame tk = None) idle ->
  tk_running stop = false ->
  detection_loop cv_resize pil_resize in_w in_h in_dtype in_scale in_zero
    labels score_thresh (idle ++ stop :: rest) st = (st, Exited).
Proof.
  intros Hidle Hstop. induction Hidle as [|tk idle [Hr Hf] _ IH]; simpl.
  - rewrite Hstop. reflexivity.
  - rewrite Hr, Hf. simpl. exact IH.
Qed.
End LoopIdle.


Lemma detection_loop_idle_then_stop_witness :
  Example.run
    ([Deployment.tick_idle; Deployment.tick_idle] ++
     Deployment.tick_stop :: [Example.tick_good]) Example.st0
  = (Example.st0, Exited).
Proof.
  apply (@detection_loop_idle_then_stop _ _ SF32 SF64 nn_resize nn_resize 320 320
           UInt8 (S754_zero false) 0 Example.labels Example.score_thresh
           [Deployment.tick_idle; Deployment.tick_idle] Deployment.tick_stop
           [Example.tick_good] Example.st0).
  - repeat constructor.
  - reflexivity.
Defined.

(** ** How many detections *)

Lemma sorted_below_length (idx : list nat) (a k : nat) :
  StronglySorted lt idx -> Forall (fun i => a <= i < a + k)%nat idx ->
  (List.length idx <= k)%nat.
Proof.
  revert a k. induction idx as [|i idx IH]; intros a k Hs Hr; simpl; [lia|].
  inversion Hs as [|? ? Hs' Hlt]; subst. inversion Hr as [|? ? Hi Hr']; subst.
  destruct k as [|k]; [lia|].
  apply le_n_S. apply Nat.le_trans with (a + k - i)%nat; [|lia].
  apply (IH (S i) (a + k - i)%nat Hs').
  rewrite Forall_forall in *. intros j Hj.
  specialize (Hlt j Hj). specialize (Hr' j Hj). simpl in Hr'. lia.
Qed.

Lemma for_each_reaches {I S : Type} (body : I -> S -> res S) (l : list I) (s s' : S) :
  for_each body l s = Ok s' ->
  forall i, In i l -> exists s1 s2, body i s1 = Ok s2.
Proof.
  revert s. induction l as [|j l IH]; intros s H i Hi; [destruct Hi|].
  simpl in H. destruct (body j s) as [s1|e] eqn:E; [|discriminate].
  destruct Hi as [<-|Hi]; [eauto | exact (IH s1 H i Hi)].
Qed.

Section PostProcessSize.
Context {F : Type} {PF : PyFloat F}.
Variables (in_w in_h : Z) (labels : list string) (score_thresh : F).
Variables (raw : raw_output F) (scale : F) (left top : Z) (w h : Z).

(** X5: a post-processor that returns has read [count] scores and kept at most
    [count] detections: [count] is not larger than the number of scores,
    and the list returned is not longer than [count]. *)
Theorem post_process_size (n : Z) (dets : list (detection F)) :
  to_int (count raw) = Ok n ->
  post_process in_w in_h labels score_thresh raw scale left top w h = Ok dets ->
  n <= Z.of_nat (List.length (scores raw)) /\
  Z.of_nat (List.length dets) <= Z.max 0 n.
Proof.
  intros Hn H. unfold post_process in H. rewrite Hn in H. cbn [bind] in H.
  unfold py_range in H. split.
  - destruct (Z_le_gt_dec n (Z.of_nat (List.length (scores raw)))) as [|Hgt];
      [assumption|].
    destruct (for_each_reaches _ _ _ _ H (List.length (scores raw)))
      as (s1 & s2 & E).
    { apply in_seq. lia. }
    unfold loop_body, index in E.
    assert (En : nth_error (scores raw) (List.length (scores raw)) = None)
      by (apply nth_error_None; lia).
    rewrite En in E. discriminate.
  - apply for_each_loop_body in H.
    destruct H as (idx & new & -> & Hs & Hr & Hd & _).
    simpl. pose proof (sorted_below_length idx 0 (Z.to_nat n) Hs Hr) as L.
    apply Forall2_length in Hd. lia.
Qed.
End PostProcessSize.

Lemma post_process_size_witness :
  4 <= Z.of_nat (List.length (scores Example.raw)) /\
  Z.of_nat (List.length [Example.det0; Example.det2]) <= Z.max 0 4.
Proof.
  apply (@post_process_size _ SF64 320 320 Example.labels Example.score_thresh
           Example.raw Example.scale Example.left Example.top 640 480 4
           [Example.det0; Example.det2]).
  - reflexivity.
  - exact post_process_example.
Defined.

(** ** The FPS update *)

Lemma rnd53_pos (q : Q) : (0 < q)%Q -> (0 < rnd_to 53 q)%Q.
Proof.
  intros Hq. destruct (rnd_to_bounds 53 q Hq) as [L _].
  eapply Qlt_le_trans; [|exact L].
  apply Qmult_lt_0_compat; [exact Hq | reflexivity].
Qed.

Section FpsUpdate.
Context {F32 : Type} {P32 : PyFloat F32}.
Variables cv_resize pil_resize : image -> Z -> Z -> res image.
Variables (in_w in_h : Z) (in_dtype : dtype) (in_scale : F32) (in_zero : Z).
Variables (labels : list string) (score_thresh : Q).

(** X6: the FPS update never fails: a cycle whose letterbox, interpreter call
    and post-processing return does return, publishes the detections and
    the clock, and sets the FPS to a positive value when the clock has
    advanced since the last cycle and to 0 when it has not. *)
Theorem cycle_fps_update (tk : @tick F32 Q) (frame : image) (st : @pstate Q)
    (lb_img : image) (scale : Q) (left top : Z) (raw : raw_output Q)
    (dets : list (detection Q)) :
  @letterbox Q R64 cv_resize pil_resize frame in_w in_h = Ok (lb_img, scale, left, top) ->
  tk_invoke tk (quantize_input lb_img in_dtype in_scale in_zero) = Ok raw ->
  @post_process Q R64 in_w in_h labels score_thresh raw scale left top
    (Z.of_nat (width frame)) (Z.of_nat (height frame)) = Ok dets ->
  exists st',
    @cycle F32 Q P32 R64 cv_resize pil_resize in_w in_h in_dtype in_scale in_zero
      labels score_thresh tk frame st = Ok st' /\
    detections st' = dets /\ t_prev st' = tk_now tk /\
    ((t_prev st < tk_now tk)%Q -> (0 < fps st')%Q) /\
    (~ (t_prev st < tk_now tk)%Q -> fps st' = 0%Q).
Proof.
  intros El Ei Ep. unfold cycle. rewrite El. cbn [bind]. rewrite Ei. cbn [bind].
  rewrite Ep. cbn [bind].
  destruct (@flt Q R64 (t_prev st) (tk_now tk)) eqn:C.
  - apply Qltb_lt in C.
    unfold float_truediv. cbn [fis_zero fsub fdiv R64 RQ].
    assert (Pd : (0 < rnd_to 53 (tk_now tk - t_prev st))%Q) by (apply rnd53_pos; lra).
    replace (Qeq_bool (rnd_to 53 (tk_now tk - t_prev st)) 0) with false
      by (symmetry; apply not_true_is_false; intros Z0; apply Qeq_bool_iff in Z0; lra).
    cbn [bind]. eexists. split; [reflexivity|]. cbn [detections t_prev fps].
    split; [reflexivity|]. split; [reflexivity|]. split; [|intros N; contradiction].
    intros _. apply rnd53_pos.
    assert (E1 : (@of_int Q R64 1 == 1)%Q) by reflexivity.
    rewrite E1. apply Qlt_shift_div_l; [exact Pd | lra].
  - cbn [bind]. eexists. split; [reflexivity|]. cbn [detections t_prev fps].
    split; [reflexivity|]. split; [reflexivity|]. split.
    + intros L. apply Qltb_lt in L. cbn [flt R64 RQ] in C. congruence.
    + intros _. reflexivity.
Qed.
End FpsUpdate.


Lemma cycle_fps_update_witness :
  exists st',
    @cycle spec_float Q SF32 R64 nn_resize nn_resize 32 32 UInt8 (S754_zero false) 0
      Example.labels (1 # 2)%Q Deployment.tickQ (Example.frame 48 64) Deployment.stQ
    = Ok st' /\
    detections st' = [ {| box := (16, 8, 48, 40); name := "cat"%string;
                          score := (3 # 4)%Q |} ] /\
    t_prev st' = (3 # 2)%Q /\
    ((t_prev Deployment.stQ < tk_now Deployment.tickQ)%Q -> (0 < fps st')%Q) /\
    (~ (t_prev Deployment.stQ < tk_now Deployment.tickQ)%Q -> fps st' = 0%Q).
Proof.
  eapply (@cycle_fps_update spec_float SF32 nn_resize nn_resize 32 32 UInt8
            (S754_zero false) 0 Example.labels (1 # 2)%Q Deployment.tickQ
            (Example.frame 48 64) Deployment.stQ).
  - vm_compute. reflexivity.
  - reflexivity.
  - vm_compute. reflexivity.
Defined.

(** ** More of the letterbox geometry *)

Lemma Qtrunc_eq (q : Q) (n : Z) : (q == inject_Z n)%Q -> 0 <= n -> Qtrunc q = n.
Proof.
  intros E Hn. rewrite Qtrunc_floor.
  - rewrite (Qfloor_comp _ _ E). apply Qfloor_Z.
  - rewrite E. change 0%Q with (inject_Z 0). rewrite <- Zle_Qle. exact Hn.
Qed.

Lemma inject_Z_ge1 (n : Z) : 1 <= n -> (1 <= inject_Z n)%Q.
Proof. intros H. change 1%Q with (inject_Z 1). rewrite <- Zle_Qle. exact H. Qed.

(** X7: the resized image fills the canvas on one axis up to a pixel, so at
    most one axis is padded: one of the two offsets is 0. *)
Theorem letterbox_pads_one_axis (img : image) (new_w new_h : Z) :
  1 <= Z.of_nat (width img) < 2 ^ 50 -> 1 <= Z.of_nat (height img) < 2 ^ 50 ->
  1 <= new_w < 2 ^ 50 -> 1 <= new_h < 2 ^ 50 ->
  exists scale nw nh,
    @letterbox_dims Q R64 img new_w new_h = Ok (scale, nw, nh) /\
    (new_w - 1 <= nw \/ new_h - 1 <= nh) /\
    ((new_w - nw) / 2 = 0 \/ (new_h - nh) / 2 = 0).
Proof.
  intros Hw Hh HW HH.
  destruct (rnd53_letterbox_dims img new_w new_h Hw Hh HW HH)
    as (scale & nw & nh & E & Ps & _ & _ & Bw & Bh & [Lw _] & [Lh _]).
  exists scale, nw, nh. split; [exact E|].
  destruct (letterbox_dims_inv _ _ _ _ _ _ E) as (Es & _ & _).
  destruct (RQ_quotient (rnd_to 53) (pow2 (-53)) (2 ^ 50)
              rnd53_eq rnd53_int rnd53_bounds rnd53_eps_small
              new_w (Z.of_nat (width img)) HW Hw) as (_ & La & _).
  destruct (RQ_quotient (rnd_to 53) (pow2 (-53)) (2 ^ 50)
              rnd53_eq rnd53_int rnd53_bounds rnd53_eps_small
              new_h (Z.of_nat (height img)) HH Hh) as (_ & Lb & _).
  cbv zeta in La, Lb.
  destruct rnd53_eps_small as [E0 E1].
  assert (E8 : (pow2 (-53) <= 1 # 8)%Q) by (vm_compute; discriminate).
  assert (E4 : (inject_Z (2 ^ 50) * pow2 (-53) <= 1 # 4)%Q) by (vm_compute; discriminate).
  set (eps := pow2 (-53)) in *.
  assert (Pw := inject_Z_ge1 _ (proj1 Hw)). assert (Ph := inject_Z_ge1 _ (proj1 Hh)).
  assert (PW := inject_Z_ge1 _ (proj1 HW)). assert (PH := inject_Z_ge1 _ (proj1 HH)).
  assert (BW : (inject_Z new_w <= inject_Z (2 ^ 50))%Q) by (rewrite <- Zle_Qle; lia).
  assert (BH : (inject_Z new_h <= inject_Z (2 ^ 50))%Q) by (rewrite <- Zle_Qle; lia).
  assert (EW : (inject_Z new_w * eps <= inject_Z (2 ^ 50) * eps)%Q)
    by (apply Qmult_le_compat_r; lra).
  assert (EH : (inject_Z new_h * eps <= inject_Z (2 ^ 50) * eps)%Q)
    by (apply Qmult_le_compat_r; lra).
  assert (Tight : new_w - 1 <= nw \/ new_h - 1 <= nh).
  { destruct (RQ_py_min (rnd_to 53)
                (@fdiv Q R64 (@of_int Q R64 new_w) (@of_int Q R64 (Z.of_nat (width img))))
                (@fdiv Q R64 (@of_int Q R64 new_h) (@of_int Q R64 (Z.of_nat (height img)))))
      as (_ & _ & [M | M]).
    - left.
      assert (La' : (inject_Z new_w * (1 - eps) <= scale * inject_Z (Z.of_nat (width img)))%Q)
        by (replace scale with
              (@fdiv Q R64 (@of_int Q R64 new_w) (@of_int Q R64 (Z.of_nat (width img))))
              by (rewrite Es; symmetry; exact M); exact La).
      assert (X : (inject_Z new_w * (1 - eps) * (1 - eps)
                   <= inject_Z (Z.of_nat (width img)) * scale * (1 - eps))%Q).
      { apply Qmult_le_compat_r; [|lra].
        rewrite (Qmult_comm (inject_Z (Z.of_nat (width img)))). exact La'. }
      assert (C : (inject_Z (new_w - 2) < inject_Z nw)%Q).
      { unfold Z.sub. rewrite inject_Z_plus. replace (inject_Z (- (2))) with (-2 # 1)%Q by reflexivity.
        assert (Y : (inject_Z new_w - 2 * (inject_Z new_w * eps)
                     <= inject_Z new_w * (1 - eps) * (1 - eps))%Q).
        { assert (0 <= inject_Z new_w * (eps * eps))%Q
            by (apply Qmult_le_0_compat; [lra | apply Qmult_le_0_compat; lra]).
          lra. }
        set (t := (inject_Z (Z.of_nat (width img)) * scale * (1 - eps))%Q) in *.
        set (u := (inject_Z new_w * eps)%Q) in *.
        set (v := (inject_Z (2 ^ 50) * eps)%Q) in *.
        lra. }
      rewrite <- Zlt_Qlt in C. lia.
    - right.
      assert (Lb' : (inject_Z new_h * (1 - eps) <= scale * inject_Z (Z.of_nat (height img)))%Q)
        by (replace scale with
              (@fdiv Q R64 (@of_int Q R64 new_h) (@of_int Q R64 (Z.of_nat (height img))))
              by (rewrite Es; symmetry; exact M); exact Lb).
      assert (X : (inject_Z new_h * (1 - eps) * (1 - eps)
                   <= inject_Z (Z.of_nat (height img)) * scale * (1 - eps))%Q).
      { apply Qmult_le_compat_r; [|lra].
        rewrite (Qmult_comm (inject_Z (Z.of_nat (height img)))). exact Lb'. }
      assert (C : (inject_Z (new_h - 2) < inject_Z nh)%Q).
      { unfold Z.sub. rewrite inject_Z_plus. replace (inject_Z (- (2))) with (-2 # 1)%Q by reflexivity.
        assert (Y : (inject_Z new_h - 2 * (inject_Z new_h * eps)
                     <= inject_Z new_h * (1 - eps) * (1 - eps))%Q).
        { assert (0 <= inject_Z new_h * (eps * eps))%Q
            by (apply Qmult_le_0_compat; [lra | apply Qmult_le_0_compat; lra]).
          lra. }
        set (t := (inject_Z (Z.of_nat (height img)) * scale * (1 - eps))%Q) in *.
        set (u := (inject_Z new_h * eps)%Q) in *.
        set (v := (inject_Z (2 ^ 50) * eps)%Q) in *.
        lra. }
      rewrite <- Zlt_Qlt in C. lia. }
  split; [exact Tight|].
  destruct Tight as [T | T]; [left | right]; apply Z.div_small; lia.
Qed.

Lemma rnd_to_exact (p n : Z) (x : Q) :
  (x == inject_Z n)%Q -> 0 < n < 2 ^ p -> rnd_to p x = inject_Z n.
Proof.
  intros E Hn. rewrite (rnd_to_eq p x (inject_Z n) E).
  pose proof (rnd_to_int p n ltac:(lia)) as H.
  unfold rnd_to in *.
  destruct (Qeq_bool (inject_Z n) 0) eqn:C.
  - apply Qeq_bool_iff in C. unfold Qeq in C. simpl in C. lia.
  - rewrite Qred_correct in H. rewrite (Qred_complete _ _ H).
    apply Qcanon.Qred_identity. simpl. apply Z.gcd_1_r.
Qed.

Lemma R64_of_int_exact (n : Z) : 0 < n < 2 ^ 50 -> @of_int Q R64 n = inject_Z n.
Proof.
  intros Hn. unfold of_int. cbn [of_dyadic R64 RQ].
  apply rnd_to_exact; [rewrite pow2_0; ring | lia].
Qed.

Lemma letterbox_dims_integer_zoom (img : image) (k : Z) :
  let w := Z.of_nat (width img) in
  let h := Z.of_nat (height img) in
  1 <= k -> 1 <= w -> 1 <= h -> k * w < 2 ^ 50 -> k * h < 2 ^ 50 ->
  @letterbox_dims Q R64 img (k * w) (k * h) = Ok (inject_Z k, k * w, k * h) /\
  (k * w - k * w) / 2 = 0 /\ (k * h - k * h) / 2 = 0.
Proof.
  intros w h Hk Hw Hh Bw Bh.
  split; [|split; rewrite Z.sub_diag; reflexivity].
  unfold letterbox_dims, np_truediv. fold w h. cbv zeta.
  assert (Kb : 0 < k < 2 ^ 50) by nia.
  assert (Wb : 0 < w < 2 ^ 50) by nia.
  assert (Hb : 0 < h < 2 ^ 50) by nia.
  assert (Pw : (1 <= inject_Z w)%Q) by (apply inject_Z_ge1; lia).
  assert (Ph : (1 <= inject_Z h)%Q) by (apply inject_Z_ge1; lia).
  rewrite !R64_of_int_exact by nia.
  assert (Ea : @fdiv Q R64 (inject_Z (k * w)) (inject_Z w) = inject_Z k).
  { cbn [fdiv R64 RQ]. apply rnd_to_exact; [|lia].
    rewrite inject_Z_mult. field. lra. }
  assert (Eb : @fdiv Q R64 (inject_Z (k * h)) (inject_Z h) = inject_Z k).
  { cbn [fdiv R64 RQ]. apply rnd_to_exact; [|lia].
    rewrite inject_Z_mult. field. lra. }
  rewrite Ea, Eb.
  assert (Em : @py_min Q R64 (inject_Z k) (inject_Z k) = inject_Z k)
    by (unfold py_min; destruct (flt _ _); reflexivity).
  rewrite Em.
  assert (Ew : @fmul Q R64 (inject_Z w) (inject_Z k) = inject_Z (k * w)).
  { cbn [fmul R64 RQ]. apply rnd_to_exact; [|nia]. rewrite inject_Z_mult. ring. }
  assert (Eh : @fmul Q R64 (inject_Z h) (inject_Z k) = inject_Z (k * h)).
  { cbn [fmul R64 RQ]. apply rnd_to_exact; [|nia]. rewrite inject_Z_mult. ring. }
  rewrite Ew, Eh. cbn [to_int R64 RQ bind]. rewrite !Qtrunc_inject. reflexivity.
Qed.


(** X8: a frame whose target is an integer multiple [k] of its size is scaled
    by exactly [k] and fills the canvas: both offsets are 0, nothing is
    padded, and the canvas is the resized image.  With [k = 1] the frame
    already has the size of the detector input. *)
Theorem letterbox_integer_zoom (cv_resize pil_resize : image -> Z -> Z -> res image)
    (img resized : image) (k : Z) :
  let w := Z.of_nat (width img) in
  let h := Z.of_nat (height img) in
  1 <= k -> 1 <= w -> 1 <= h -> k * w < 2 ^ 50 -> k * h < 2 ^ 50 ->
  resize cv_resize pil_resize img (k * w) (k * h) = Ok resized ->
  Z.of_nat (height resized) = k * h -> Z.of_nat (width resized) = k * w ->
  exists canvas,
    @letterbox Q R64 cv_resize pil_resize img (k * w) (k * h)
      = Ok (canvas, inject_Z k, 0, 0) /\
    Z.of_nat (height canvas) = k * h /\ Z.of_nat (width canvas) = k * w /\
    (forall r c, 0 <= r < k * h -> 0 <= c < k * w ->
       px canvas r c = px resized r c).
Proof.
  intros w h Hk Hw Hh Bw Bh Er Rh Rw.
  destruct (letterbox_dims_integer_zoom img k Hk Hw Hh Bw Bh) as (E & _ & _).
  fold w h in E.
  unfold letterbox. rewrite E. cbn [bind]. rewrite Er. cbn [bind].
  unfold zeros.
  replace ((k * h <? 0) || (k * w <? 0)) with false
    by (symmetry; apply orb_false_iff; split; apply Z.ltb_ge; nia).
  cbn [bind]. rewrite !Z.sub_diag.
  change (0 / 2) with 0.
  set (zc := {| height := Z.to_nat (k * h); width := Z.to_nat (k * w);
                px := fun _ _ : Z => (0, 0, 0) |}).
  destruct (@paste_inside pixel zc resized 0 0 (k * h) (k * w))
    as (out & Ep & Eh & Ew & Pin & _);
    try assumption; try (unfold zc; simpl; nia).
  rewrite Ep. cbn [bind]. exists out. split; [reflexivity|].
  split; [rewrite Eh; unfold zc; simpl; nia|].
  split; [rewrite Ew; unfold zc; simpl; nia|].
  intros r c Hr Hc. rewrite (Pin r c) by lia. rewrite !Z.sub_0_r. reflexivity.
Qed.

Lemma letterbox_pads_one_axis_witness :
  exists scale nw nh,
    @letterbox_dims Q R64 (Example.frame 360 640) 224 224 = Ok (scale, nw, nh) /\
    (224 - 1 <= nw \/ 224 - 1 <= nh) /\
    ((224 - nw) / 2 = 0 \/ (224 - nh) / 2 = 0).
Proof.
  apply (letterbox_pads_one_axis (Example.frame 360 640) 224 224);
    simpl; lia.
Defined.

Lemma letterbox_integer_zoom_witness :
  exists canvas,
    @letterbox Q R64 nn_resize nn_resize (Example.frame 2 3) (2 * 3) (2 * 2)
      = Ok (canvas, inject_Z 2, 0, 0) /\
    Z.of_nat (height canvas) = 2 * 2 /\ Z.of_nat (width canvas) = 2 * 3 /\
    (forall r c, 0 <= r < 2 * 2 -> 0 <= c < 2 * 3 ->
       px canvas r c = px (Example.frame 2 3) (r * 2 / 4) (c * 3 / 6)).
Proof.
  apply (letterbox_integer_zoom nn_resize nn_resize (Example.frame 2 3)
           {| height := 4; width := 6;
              px := fun r c => px (Example.frame 2 3) (r * 2 / 4) (c * 3 / 6) |} 2);
    try (simpl; lia); reflexivity.
Defined.

(** ** More of the quantizer *)

(** A function on the bytes that increases at every step increases. *)
Lemma chain_Qlt (g : Z -> Q) :
  (forall x, 0 <= x < 255 -> (g x < g (x + 1)%Z)%Q) ->
  forall x y, 0 <= x -> x < y -> y <= 255 -> (g x < g y)%Q.
Proof.
  intros Hstep x y Hx Hxy Hy.
  replace y with (x + 1 + Z.of_nat (Z.to_nat (y - x - 1))) by lia.
  assert (Hb : x + 1 + Z.of_nat (Z.to_nat (y - x - 1)) <= 255) by lia.
  induction (Z.to_nat (y - x - 1)) as [|k IH].
  - rewrite Z.add_0_r. apply Hstep. lia.
  - apply Qlt_trans with (g (x + 1 + Z.of_nat k)); [apply IH; lia|].
    replace (x + 1 + Z.of_nat (S k)) with (x + 1 + Z.of_nat k + 1) by lia.
    apply Hstep. lia.
Qed.

Lemma chain_Zle (g : Z -> Z) :
  (forall x, 0 <= x < 255 -> g x <= g (x + 1)) ->
  forall x y, 0 <= x -> x <= y -> y <= 255 -> g x <= g y.
Proof.
  intros Hstep x y Hx Hxy Hy.
  replace y with (x + Z.of_nat (Z.to_nat (y - x))) by lia.
  assert (Hb : x + Z.of_nat (Z.to_nat (y - x)) <= 255) by lia.
  induction (Z.to_nat (y - x)) as [|k IH].
  - rewrite Z.add_0_r. lia.
  - apply Z.le_trans with (g (x + Z.of_nat k)); [apply IH; lia|].
    replace (x + Z.of_nat (S k)) with (x + Z.of_nat k + 1) by lia.
    apply Hstep. lia.
Qed.

(** X9: the float32 path keeps the order of the samples strictly and is exact
    at both ends: byte 0 becomes [+0.0], byte 255 becomes [1.0], and a
    larger byte always becomes a larger binary32 value. *)
Theorem float32_path_increasing (in_scale : spec_float) (in_zero : Z) :
  (forall x y, 0 <= x -> x < y -> y <= 255 ->
     exists vx vy qx qy,
       @quantize_elem _ SF32 Float32 in_scale in_zero x = QF32 vx /\
       @quantize_elem _ SF32 Float32 in_scale in_zero y = QF32 vy /\
       SF2Q vx = Some qx /\ SF2Q vy = Some qy /\ (qx < qy)%Q) /\
  @quantize_elem _ SF32 Float32 in_scale in_zero 0 = QF32 (S754_zero false) /\
  @quantize_elem _ SF32 Float32 in_scale in_zero 255 = QF32 (@of_int _ SF32 1).
Proof.
  split; [|split; reflexivity].
  intros x y Hx Hxy Hy.
  set (f := fun x => @fdiv _ SF32 (@of_int _ SF32 x) (@of_int _ SF32 255)).
  set (g := fun x => match SF2Q (f x) with Some q => q | None => 0%Q end).
  assert (Fin : forall z, 0 <= z <= 255 -> SF2Q (f z) = Some (g z)).
  { intros z Hz.
    pose proof (forall_bytes (fun z => match SF2Q (f z) with Some _ => true | None => false end)
      ltac:(vm_compute; reflexivity) z ltac:(exact Hz)) as H.
    cbv beta in H.
    unfold g. simpl in H. destruct (SF2Q (f z)); [reflexivity | discriminate]. }
  assert (Step : forall z, 0 <= z < 255 -> (g z < g (z + 1)%Z)%Q).
  { intros z Hz. apply Qltb_lt.
    pose proof (forall_bytes (fun z => (z =? 255) || Qltb (g z) (g (z + 1)))
      ltac:(vm_compute; reflexivity) z ltac:(lia)) as H.
    cbv beta in H. apply orb_true_iff in H. destruct H as [H|H]; [|exact H].
    apply Z.eqb_eq in H. lia. }
  exists (f x), (f y), (g x), (g y).
  split; [reflexivity|]. split; [reflexivity|].
  split; [apply Fin; lia|]. split; [apply Fin; lia|].
  apply (chain_Qlt g Step); assumption.
Qed.

(** X10: the int8 fallback keeps the order of the samples, and it is the affine
    path with scale [1/256] and zero-point [-128]: on every byte the two
    give the same int8 value. *)
Theorem int8_fallback_is_affine (in_scale : spec_float) (in_zero : Z) :
  @flt _ SF32 (@of_int _ SF32 0) in_scale = false ->
  (forall x, 0 <= x <= 255 ->
     @quantize_elem _ SF32 Int8 in_scale in_zero x
     = @quantize_elem _ SF32 Int8 (@of_dyadic _ SF32 1 (-8)) (-128) x) /\
  (forall x y, 0 <= x -> x <= y -> y <= 255 ->
     exists a b,
       @quantize_elem _ SF32 Int8 in_scale in_zero x = QI8 a /\
       @quantize_elem _ SF32 Int8 in_scale in_zero y = QI8 b /\ a <= b).
Proof.
  intros Hs. split.
  - intros x Hx. rewrite (SF32_int8_fallback in_scale in_zero x Hs Hx).
    pose proof (forall_bytes (fun x =>
              match @quantize_elem _ SF32 Int8 (@of_dyadic _ SF32 1 (-8)) (-128) x with
              | QI8 n => n =? int8_fallback_spec x
              | _ => false
              end)
      ltac:(vm_compute; reflexivity) x ltac:(exact Hx)) as H.
    cbv beta in H.
    destruct (@quantize_elem _ SF32 Int8 (@of_dyadic _ SF32 1 (-8)) (-128) x);
      try discriminate.
    apply Z.eqb_eq in H. congruence.
  - intros x y Hx Hxy Hy.
    exists (int8_fallback_spec x), (int8_fallback_spec y).
    split; [apply SF32_int8_fallback; [exact Hs | lia]|].
    split; [apply SF32_int8_fallback; [exact Hs | lia]|].
    apply (chain_Zle int8_fallback_spec); try assumption.
    intros z Hz.
    pose proof (forall_bytes (fun z => (z =? 255) || (int8_fallback_spec z <=? int8_fallback_spec (z + 1)))
      ltac:(vm_compute; reflexivity) z ltac:(lia)) as H.
    cbv beta in H. apply orb_true_iff in H. destruct H as [H|H].
    + apply Z.eqb_eq in H. lia.
    + apply Z.leb_le. exact H.
Qed.

(** X11: with the parameters of plain normalisation, scale [1/255] and
    zero-point 0, the uint8 path gives every byte back unchanged. *)
Theorem uint8_unit_scale_identity (x : Z) :
  0 <= x <= 255 ->
  @quantize_elem _ SF32 UInt8 (@fdiv _ SF32 (@of_int _ SF32 1) (@of_int _ SF32 255)) 0 x
  = QU8 x.
Proof.
  intros Hx.
  pose proof (forall_bytes (fun x =>
            match @quantize_elem _ SF32 UInt8
                    (@fdiv _ SF32 (@of_int _ SF32 1) (@of_int _ SF32 255)) 0 x with
            | QU8 n => n =? x
            | _ => false
            end)
      ltac:(vm_compute; reflexivity) x ltac:(exact Hx)) as H.
    cbv beta in H.
  destruct (@quantize_elem _ SF32 UInt8 _ 0 x); try discriminate.
  apply Z.eqb_eq in H. congruence.
Qed.


Lemma int8_fallback_is_affine_witness :
  (forall x, 0 <= x <= 255 ->
     @quantize_elem _ SF32 Int8 (S754_zero false) 0 x
     = @quantize_elem _ SF32 Int8 (@of_dyadic _ SF32 1 (-8)) (-128) x) /\
  (forall x y, 0 <= x -> x <= y -> y <= 255 ->
     exists a b,
       @quantize_elem _ SF32 Int8 (S754_zero false) 0 x = QI8 a /\
       @quantize_elem _ SF32 Int8 (S754_zero false) 0 y = QI8 b /\ a <= b).
Proof. apply (int8_fallback_is_affine (S754_zero false) 0). reflexivity. Defined.

Lemma uint8_unit_scale_identity_witness :
  @quantize_elem _ SF32 UInt8 (@fdiv _ SF32 (@of_int _ SF32 1) (@of_int _ SF32 255)) 0 200
  = QU8 200.
Proof. apply (uint8_unit_scale_identity 200). lia. Defined.

(** ** [download] *)

Section DownloadFacts.
Variable urlretrieve : string -> string -> filesystem -> filesystem * bool.

Lemma download_large {url path : string} {fs fs' : filesystem}
    {r : download_result} :
  download urlretrieve url path fs = (fs', r) ->
  r = Kept \/ r = Fetched ->
  exists size, fs' path = Some size /\ 1000000 <= size.
Proof.
  unfold download, cached, too_small. intros E Hr.
  destruct (fs path) as [size|] eqn:Ep.
  - destruct (1000000 <? size) eqn:C.
    + inversion E; subst. exists size. apply Z.ltb_lt in C. split; [exact Ep | lia].
    + destruct (urlretrieve url path fs) as [fs1 returned].
      destruct returned; [|inversion E; subst; destruct Hr; discriminate].
      destruct (fs1 path) as [size1|] eqn:Ep1;
        [|inversion E; subst; destruct Hr; discriminate].
      destruct (size1 <? 1000000) eqn:C1;
        inversion E; subst; [destruct Hr; discriminate|].
      exists size1. apply Z.ltb_ge in C1. auto.
  - destruct (urlretrieve url path fs) as [fs1 returned].
    destruct returned; [|inversion E; subst; destruct Hr; discriminate].
    destruct (fs1 path) as [size1|] eqn:Ep1;
      [|inversion E; subst; destruct Hr; discriminate].
    destruct (size1 <? 1000000) eqn:C1;
      inversion E; subst; [destruct Hr; discriminate|].
    exists size1. apply Z.ltb_ge in C1. auto.
Qed.

(** X12: when [download] returns without raising, the file is there and has at
    least 1,000,000 bytes. *)
Theorem download_leaves_large_file (url path : string) (fs fs' : filesystem)
    (r : download_result) :
  download urlretrieve url path fs = (fs', r) ->
  r = Kept \/ r = Fetched ->
  exists size, fs' path = Some size /\ 1000000 <= size.
Proof. exact download_large. Qed.

(** X13: the two size tests do not agree at exactly 1,000,000 bytes.  After a
    fetch that passed, a second call keeps the file and fetches nothing
    when the file is larger than 1,000,000 bytes; but a file of exactly
    1,000,000 bytes, which the fetch accepted, is not kept: the second call
    fetches again and leaves the file system [urlretrieve] leaves. *)
Theorem download_again (url path : string) (fs fs' : filesystem) (size : Z) :
  download urlretrieve url path fs = (fs', Fetched) ->
  fs' path = Some size ->
  1000000 <= size /\
  (1000000 < size -> download urlretrieve url path fs' = (fs', Kept)) /\
  (size = 1000000 ->
     fst (download urlretrieve url path fs') = fst (urlretrieve url path fs') /\
     snd (download urlretrieve url path fs') <> Kept).
Proof.
  intros E Ep.
  destruct (download_large E (or_intror eq_refl)) as (size' & Ep' & Hs').
  rewrite Ep in Ep'. inversion Ep'; subst size'. clear Ep'.
  split; [exact Hs'|].
  split; intros Hs; unfold download, cached; rewrite Ep.
  - replace (1000000 <? size) with true by (symmetry; apply Z.ltb_lt; lia). reflexivity.
  - replace (1000000 <? size) with false by (symmetry; apply Z.ltb_ge; lia).
    destruct (urlretrieve url path fs') as [fs2 returned]. simpl.
    destruct returned; [destruct (too_small fs2 path)|]; simpl;
      (split; [reflexivity | discriminate]).
Qed.

End DownloadFacts.

(** ** The overlay *)

Section OverlayFacts.
Context {F : Type} {PF : PyFloat F}.
Variables (in_w in_h : Z) (labels : list string) (score_thresh : F).
Variable format_score : F -> string.

(** X14: whatever the post-processor returns is drawn inside the frame: every
    rectangle has a positive width and height and both its corners on
    pixels of the frame, and every caption is anchored on a pixel of the
    frame. *)
Theorem overlay_inside_frame (raw : raw_output F) (scale : F) (left top : Z)
    (w h : Z) (dets : list (detection F)) (s : shape) :
  post_process in_w in_h labels score_thresh raw scale left top w h = Ok dets ->
  In s (overlay format_score dets) ->
  in_frame w h s.
Proof.
  unfold post_process. intros H Hin. bind_inv H.
  apply for_each_loop_body in H.
  destruct H as (idx & new & -> & _ & _ & _ & _ & Hb & _). simpl in Hin.
  unfold overlay in Hin. apply in_flat_map in Hin. destruct Hin as (d & Hd & Hs).
  rewrite Forall_forall in Hb. apply Hb in Hd.
  unfold box_ok in Hd. unfold overlay_of in Hs.
  destruct (box d) as [[[x1 y1] x2] y2].
  destruct Hs as [<- | [<- | []]]; simpl; lia.
Qed.
End OverlayFacts.

(** ** Quantization parameters *)

(** X15: a detector that publishes no quantization parameters (no entry, the
    entry [None], or a scale of zero) gets the bytes unchanged on the uint8
    path and the fixed fallback on the int8 path. *)
Theorem quantize_without_parameters (entry : option (option (spec_float * Z))) (x : Z) :
  @fis_zero _ SF32 (fst (@quantization _ SF32 entry)) = true ->
  0 <= x <= 255 ->
  @quantize_configured _ SF32 UInt8 entry x = QU8 x /\
  @quantize_configured _ SF32 Int8 entry x = QI8 (int8_fallback_spec x).
Proof.
  intros Hz Hx. unfold quantize_configured.
  destruct (@quantization _ SF32 entry) as [in_scale in_zero]. cbn [fst] in Hz.
  unfold scale_or_zero. rewrite Hz.
  assert (Hs : @flt _ SF32 (@of_int _ SF32 0) (@of_int _ SF32 0) = false) by reflexivity.
  split.
  - unfold quantize_elem. rewrite Hs. rewrite wrap_u8_id by exact Hx. reflexivity.
  - apply SF32_int8_fallback; [exact Hs | exact Hx].
Qed.


Lemma download_leaves_large_file_witness :
  exists size,
    fst (download Deployment.fetch Deployment.model_url Deployment.model_path
           Deployment.no_files) Deployment.model_path = Some size /\
    1000000 <= size.
Proof.
  apply (download_leaves_large_file Deployment.fetch Deployment.model_url
           Deployment.model_path Deployment.no_files _ Fetched).
  - reflexivity.
  - right. reflexivity.
Defined.

Lemma download_again_witness :
  let fs' := fst (download Deployment.fetch Deployment.model_url
                    Deployment.model_path Deployment.no_files) in
  1000000 <= 1000000 /\
  (1000000 < 1000000 ->
     download Deployment.fetch Deployment.model_url Deployment.model_path fs'
     = (fs', Kept)) /\
  (1000000 = 1000000 ->
     fst (download Deployment.fetch Deployment.model_url Deployment.model_path fs')
     = fst (Deployment.fetch Deployment.model_url Deployment.model_path fs') /\
     snd (download Deployment.fetch Deployment.model_url Deployment.model_path fs')
     <> Kept).
Proof.
  apply (download_again Deployment.fetch Deployment.model_url
           Deployment.model_path Deployment.no_files).
  - reflexivity.
  - reflexivity.
Defined.

Lemma overlay_inside_frame_witness :
  in_frame 640 480 (Rectangle 160 80 320 320).
Proof.
  apply (@overlay_inside_frame _ SF64 320 320 Example.labels Example.score_thresh
           (fun _ => "0.50"%string) Example.raw Example.scale Example.left
           Example.top 640 480 [Example.det0; Example.det2]).
  - exact post_process_example.
  - left. reflexivity.
Defined.

Lemma quantize_without_parameters_witness :
  @quantize_configured _ SF32 UInt8 None 200 = QU8 200 /\
  @quantize_configured _ SF32 Int8 None 200 = QI8 (int8_fallback_spec 200).
Proof.
  apply (quantize_without_parameters None 200); [reflexivity | lia].
Defined.

(** ** The label file *)

Lemma lstrip_spec (s : list ascii) :
  exists pre, s = pre ++ lstrip s /\
    (forall c, hd_error (lstrip s) = Some c -> is_space c = false).
Proof.
  induction s as [|c s IH]; simpl.
  - exists []. split; [reflexivity | discriminate].
  - destruct (is_space c) eqn:C.
    + destruct IH as (pre & E & H). exists (c :: pre). split; [simpl; congruence | exact H].
    + exists []. split; [reflexivity|]. simpl. intros c' [= <-]. exact C.
Qed.

Lemma lstrip_clean (s : list ascii) :
  (forall c, hd_error s = Some c -> is_space c = false) -> lstrip s = s.
Proof.
  destruct s as [|c s]; simpl; [reflexivity|].
  intros H. rewrite (H c eq_refl). reflexivity.
Qed.

Lemma hd_error_app {A : Type} (l1 l2 : list A) (x : A) :
  hd_error l1 = Some x -> hd_error (l1 ++ l2) = Some x.
Proof. destruct l1; simpl; [discriminate | auto]. Qed.

(** [strip] leaves no white space at either end and only removes
    characters. *)
Lemma strip_spec (s : list ascii) :
  (forall c, hd_error (strip s) = Some c -> is_space c = false) /\
  (forall c, hd_error (rev (strip s)) = Some c -> is_space c = false) /\
  exists pre post, s = pre ++ strip s ++ post.
Proof.
  unfold strip.
  destruct (lstrip_spec s) as (pre & Es & Hs).
  destruct (lstrip_spec (rev (lstrip s))) as (post & Er & Hr).
  set (a := lstrip s) in *. set (b := lstrip (rev a)) in *.
  assert (Ea : a = rev b ++ rev post).
  { rewrite <- rev_app_distr, <- Er. symmetry. apply rev_involutive. }
  split; [|split].
  - intros c Hc. apply Hs. rewrite Ea. apply hd_error_app. exact Hc.
  - rewrite rev_involutive. exact Hr.
  - exists pre, (rev post). rewrite <- Ea. exact Es.
Qed.

Lemma strip_clean (s : list ascii) :
  (forall c, hd_error s = Some c -> is_space c = false) ->
  (forall c, hd_error (rev s) = Some c -> is_space c = false) ->
  strip s = s.
Proof.
  intros H1 H2. unfold strip. rewrite (lstrip_clean s H1), (lstrip_clean _ H2).
  apply rev_involutive.
Qed.

(** No line of [splitlines] holds a line boundary. *)
Lemma splitlines_from_no_break (n : nat) : forall (s cur : list ascii),
  (List.length s <= n)%nat ->
  Forall (fun c => is_linebreak c = false) cur ->
  Forall (Forall (fun c => is_linebreak c = false)) (splitlines_from cur s).
Proof.
  induction n as [|n IH]; intros s cur Hn Hcur.
  - destruct s; [|simpl in Hn; lia]. simpl.
    destruct cur; [constructor|]. constructor; [|constructor].
    apply Forall_rev. exact Hcur.
  - destruct s as [|c s]; simpl.
    + destruct cur; [constructor|]. constructor; [|constructor].
      apply Forall_rev. exact Hcur.
    + simpl in Hn. destruct (is_linebreak c) eqn:C.
      * destruct s as [|d s'].
        -- constructor; [apply Forall_rev; exact Hcur | constructor].
        -- destruct (Ascii.eqb c "013" && Ascii.eqb d "010");
             (constructor; [apply Forall_rev; exact Hcur|]);
             apply IH; simpl in *; try lia; constructor.
      * apply IH; [lia|]. constructor; assumption.
Qed.

Lemma splitlines_from_line (l r cur : list ascii) :
  Forall (fun c => is_linebreak c = false) l ->
  splitlines_from cur (l ++ "010"%char :: r)
  = (rev cur ++ l) :: splitlines_from [] r.
Proof.
  intros Hl. revert cur. induction Hl as [|c l Hc _ IH]; intros cur; simpl.
  - rewrite app_nil_r. destruct r as [|d r']; reflexivity.
  - rewrite Hc. rewrite IH. simpl. rewrite <- app_assoc. reflexivity.
Qed.

Lemma splitlines_from_last (l cur : list ascii) :
  Forall (fun c => is_linebreak c = false) l ->
  rev cur ++ l <> [] ->
  splitlines_from cur l = [rev cur ++ l].
Proof.
  intros Hl. revert cur. induction Hl as [|c l Hc _ IH]; intros cur Hne; simpl.
  - rewrite app_nil_r in *. destruct cur; [contradiction | reflexivity].
  - rewrite Hc. rewrite IH; simpl; rewrite <- app_assoc; simpl; [reflexivity|].
    intros E. apply app_eq_nil in E. destruct E as [_ E]. discriminate.
Qed.

Lemma list_ascii_of_string_app (a b : string) :
  list_ascii_of_string (a ++ b) = list_ascii_of_string a ++ list_ascii_of_string b.
Proof. induction a as [|c a IH]; simpl; [reflexivity | rewrite IH; reflexivity]. Qed.

(** X16: every label the loader returns is clean: not empty, with no white
    space at either end and no line boundary inside. *)
Theorem loaded_labels_clean (opened : zip_read archive) (labels : list string) :
  load_labels_from_tflite opened = Some labels ->
  Forall clean_label labels.
Proof.
  assert (P : forall txt, Forall clean_label (parse_labels txt)).
  { intros txt. unfold parse_labels. apply Forall_forall. intros l Hl.
    apply in_map_iff in Hl. destruct Hl as (cs & <- & Hcs).
    apply filter_In in Hcs. destruct Hcs as [Hcs Hne].
    apply in_map_iff in Hcs. destruct Hcs as (ln & <- & Hln).
    unfold clean_label. rewrite list_ascii_of_string_of_list_ascii.
    destruct (strip_spec ln) as (H1 & H2 & pre & post & E).
    split; [|split; [exact H1 | split; [exact H2|]]].
    - intros Z0. rewrite Z0 in Hne. discriminate.
    - pose proof (splitlines_from_no_break (List.length (list_ascii_of_string txt))
                    (list_ascii_of_string txt) [] (Nat.le_refl _) (Forall_nil _)) as Hall.
      rewrite Forall_forall in Hall. specialize (Hall ln Hln).
      rewrite E in Hall. apply Forall_app in Hall. destruct Hall as [_ Hall].
      apply Forall_app in Hall. apply Hall. }
  unfold load_labels_from_tflite. intros H.
  destruct opened as [zf| |]; [|inversion H; constructor|discriminate].
  destruct (label_candidates zf) as [|name rest]; [inversion H; constructor|].
  destruct (open_member name zf) as [[txt| |]|]; try discriminate.
  - inversion H. apply P.
  - inversion H. constructor.
Qed.

(** X17: writing clean labels one per line and parsing the text gives the same
    labels back. *)
Theorem parse_labels_roundtrip (labels : list string) :
  Forall clean_label labels ->
  parse_labels (String.concat newline labels) = labels.
Proof.
  intros H. induction H as [|l ls Hl Hls IH]; [reflexivity|].
  destruct Hl as (Hne & H1 & H2 & Hnb).
  assert (Es : strip (list_ascii_of_string l) = list_ascii_of_string l)
    by (apply strip_clean; assumption).
  assert (Ek : negb (Nat.eqb (List.length (list_ascii_of_string l)) 0) = true)
    by (destruct (list_ascii_of_string l); [contradiction | reflexivity]).
  destruct ls as [|l2 ls].
  - simpl. unfold parse_labels, splitlines.
    rewrite (splitlines_from_last _ [] Hnb) by exact Hne.
    simpl. rewrite Es, Ek. simpl. rewrite string_of_list_ascii_of_string. reflexivity.
  - change (String.concat newline (l :: l2 :: ls))
      with (l ++ newline ++ String.concat newline (l2 :: ls))%string.
    unfold parse_labels in *. unfold splitlines in *.
    rewrite !list_ascii_of_string_app. simpl (list_ascii_of_string newline).
    simpl ((_ :: nil) ++ _)%list.
    rewrite (splitlines_from_line _ _ [] Hnb). simpl.
    rewrite Es, Ek. simpl. rewrite string_of_list_ascii_of_string.
    f_equal. exact IH.
Qed.


Lemma loaded_labels_clean_witness :
  Forall clean_label ["person"; "traffic light"; "car"]%string.
Proof.
  apply (loaded_labels_clean (ZipOk Deployment.model_archive)).
  reflexivity.
Defined.

Lemma parse_labels_roundtrip_witness :
  parse_labels (String.concat newline ["person"; "traffic light"]%string)
  = ["person"; "traffic light"]%string.
Proof.
  apply (parse_labels_roundtrip ["person"; "traffic light"]%string).
  repeat constructor; try discriminate;
    intros c H; inversion H; reflexivity.
Defined.

(** ** Which member is read *)

Lemma insert_by_len_nonnil (x : string) (l : list string) : insert_by_len x l <> [].
Proof. destruct l as [|y l]; simpl; [|destruct (_ <=? _)%nat]; discriminate. Qed.

(** The head of the stable sort by length is the first of the shortest
    elements. *)
Lemma sorted_by_len_head (l : list string) (h : string) (r : list string) :
  sorted_by_len l = h :: r ->
  exists pre post,
    l = pre ++ h :: post /\
    (forall y, In y pre -> (String.length h < String.length y)%nat) /\
    (forall y, In y post -> (String.length h <= String.length y)%nat).
Proof.
  revert h r. induction l as [|x l IH]; intros h r E; [discriminate|].
  simpl in E. destruct (sorted_by_len l) as [|y0 r0] eqn:Es.
  - destruct l as [|x' l']; [|exfalso; simpl in Es; exact (insert_by_len_nonnil _ _ Es)].
    simpl in E. inversion E; subst. exists [], []. repeat split; intros y [].
  - destruct (IH y0 r0 eq_refl) as (pre & post & El & Hpre & Hpost).
    simpl in E. destruct (String.length x <=? String.length y0)%nat eqn:C.
    + apply Nat.leb_le in C. inversion E; subst h r.
      exists [], l. split; [reflexivity|]. split; [intros y []|].
      intros y Hy. rewrite El in Hy. apply in_app_or in Hy.
      destruct Hy as [Hy | [<- | Hy]]; [apply Hpre in Hy; lia | lia | apply Hpost in Hy; lia].
    + apply Nat.leb_gt in C. inversion E; subst h r.
      exists (x :: pre), post. split; [simpl; congruence|]. split; [|exact Hpost].
      intros y [<- | Hy]; [exact C | apply Hpre; exact Hy].
Qed.

Lemma filter_filter {A : Type} (f g : A -> bool) (l : list A) :
  filter g (filter f l) = filter (fun x => f x && g x) l.
Proof.
  induction l as [|x l IH]; simpl; [reflexivity|].
  destruct (f x); simpl; [|exact IH].
  destruct (g x); [f_equal|]; exact IH.
Qed.

Lemma label_candidates_filter (zf : archive) :
  label_candidates zf = sorted_by_len (filter is_label_file (map fst zf)).
Proof.
  unfold label_candidates. rewrite filter_filter. reflexivity.
Qed.

(** [zf.open(name)] reads the last member of that name. *)
Lemma open_member_last (name : string) (zf : archive) (content : zip_read string) :
  open_member name zf = Some content ->
  exists before after,
    zf = before ++ (name, content) :: after /\ ~ In name (map fst after).
Proof.
  revert content. induction zf as [|[n c] zf IH]; intros content E; simpl in E;
    [discriminate|].
  destruct (open_member name zf) as [c'|] eqn:Eo.
  - inversion E; subst c'. destruct (IH content eq_refl) as (before & after & -> & Hn).
    exists ((n, c) :: before), after. split; [reflexivity | exact Hn].
  - destruct (String.eqb_spec n name) as [->|Hne]; [|discriminate].
    inversion E; subst c. exists [], zf. split; [reflexivity|].
    clear IH E. induction zf as [|[n2 c2] zf IHz]; simpl; [tauto|].
    simpl in Eo. destruct (open_member name zf) as [c3|]; [discriminate|].
    destruct (String.eqb_spec n2 name) as [->|Hne]; [discriminate|].
    intros [H|H]; [contradiction | exact (IHz eq_refl H)].
Qed.

Lemma open_member_listed (name : string) (zf : archive) :
  In name (map fst zf) -> exists content, open_member name zf = Some content.
Proof.
  induction zf as [|[n c] zf IH]; simpl; [intros []|].
  intros Hin. destruct (open_member name zf) as [c'|] eqn:Eo; [eauto|].
  destruct (String.eqb_spec n name) as [->|Hne]; [eauto|].
  destruct Hin as [Hin|Hin]; [contradiction|].
  destruct (IH Hin) as (c2 & E2). discriminate.
Qed.

(** X18: the member the labels are read from passes both name tests and is the
    first of the shortest names that do, in directory order; it is a
    member of the archive, so opening it never fails for want of the
    name. *)
Theorem label_file_choice (zf : archive) (name : string) (rest : list string) :
  label_candidates zf = name :: rest ->
  is_label_file name = true /\
  (exists pre post,
     filter is_label_file (map fst zf) = pre ++ name :: post /\
     (forall y, In y pre -> (String.length name < String.length y)%nat) /\
     (forall y, In y post -> (String.length name <= String.length y)%nat)) /\
  (exists content, open_member name zf = Some content /\ In (name, content) zf).
Proof.
  rewrite label_candidates_filter. intros E.
  destruct (sorted_by_len_head _ _ _ E) as (pre & post & El & Hpre & Hpost).
  assert (Hin : In name (filter is_label_file (map fst zf)))
    by (rewrite El; apply in_or_app; right; left; reflexivity).
  apply filter_In in Hin. destruct Hin as [Hin Hok].
  split; [exact Hok|]. split; [exists pre, post; auto|].
  destruct (open_member_listed name zf Hin) as (content & Eo).
  destruct (open_member_last name zf content Eo) as (before & after & Ez & _).
  exists content. split; [exact Eo|]. rewrite Ez.
  apply in_or_app. right. left. reflexivity.
Qed.

(** X19: a model file that is not an archive, or an archive with no member
    named like a label file, gives the empty table, and then every class is
    named by its placeholder. *)
Theorem no_label_file_placeholders (opened : zip_read archive) (c : Z) :
  opened = BadZipFile \/
  (exists zf, opened = ZipOk zf /\
     forall n, In n (map fst zf) -> is_label_file n = false) ->
  load_labels_from_tflite opened = Some [] /\
  resolve_label [] c = ("id:" ++ str_of_int c)%string.
Proof.
  intros H. split.
  - destruct H as [-> | (zf & -> & Hno)]; [reflexivity|].
    unfold load_labels_from_tflite. rewrite label_candidates_filter.
    replace (filter is_label_file (map fst zf)) with (@nil string); [reflexivity|].
    symmetry. induction (map fst zf) as [|n l IH]; simpl; [reflexivity|].
    rewrite (Hno n (or_introl eq_refl)). apply IH.
    intros n' Hn'. apply Hno. right. exact Hn'.
  - unfold resolve_label. simpl.
    replace ((0 <=? c) && (c <? 0)) with false by (symmetry; apply andb_false_iff; lia).
    replace ((1 <=? c) && (c <=? 0)) with false by (symmetry; apply andb_false_iff; lia).
    reflexivity.
Qed.


Lemma label_file_choice_witness :
  is_label_file "labelmap.txt" = true /\
  (exists pre post,
     filter is_label_file (map fst Deployment.model_archive)
     = pre ++ "labelmap.txt"%string :: post /\
     (forall y, In y pre ->
        (String.length "labelmap.txt" < String.length y)%nat) /\
     (forall y, In y post ->
        (String.length "labelmap.txt" <= String.length y)%nat)) /\
  (exists content,
     open_member "labelmap.txt" Deployment.model_archive = Some content /\
     In ("labelmap.txt"%string, content) Deployment.model_archive).
Proof.
  apply (label_file_choice Deployment.model_archive "labelmap.txt"
           ["Labels_v2.TXT"; "assets/labelmap_extended.txt"]%string).
  reflexivity.
Defined.

Lemma no_label_file_placeholders_witness :
  load_labels_from_tflite BadZipFile = Some [] /\
  resolve_label [] 7 = ("id:" ++ str_of_int 7)%string.
Proof.
  apply (no_label_file_placeholders BadZipFile 7). left. reflexivity.
Defined.
